(** * jishaku.features.python: result dispatch, argument binding, scope

    A shallow embedding of [PythonFeature] from
    [jishaku/features/python.py]: the [scope] property,
    [jsk_python_result_handling] and [jsk_python_get_convertables],
    together with the Python built-ins they call ([len], [str.strip],
    [str.replace], [str.encode('utf-8')]). *)

From Stdlib Require Import Ascii String NArith ZArith Lia.
From stdpp Require Import strings gmap list pretty.

Local Open Scope N_scope.

(** * Python text *)

(** A Python [str] is a sequence of Unicode code points; [len] counts code
    points.  [bytes] is a sequence of octets. *)
Definition codepoint := N.
Definition str := list codepoint.
Definition bytes := list N.

Definition len (s : str) : nat := List.length s.

(** A string literal of the source, all of whose characters are ASCII. *)
Definition lit (s : string) : str := N_of_ascii <$> list_ascii_of_string s.

(** Code points below [0x110000] are the ones a [str] can hold; the
    surrogates [U+D800..U+DFFF] are among them. *)
Definition is_codepoint (c : codepoint) : bool := c <? 0x110000.
Definition is_surrogate (c : codepoint) : bool := (0xD800 <=? c) && (c <=? 0xDFFF).

(** ** [str.strip] *)

(** [str.isspace] on one character: the code points CPython's
    [_PyUnicode_IsWhitespace] accepts. *)
Definition isspace (c : codepoint) : bool :=
  ((0x09 <=? c) && (c <=? 0x0D)) || ((0x1C <=? c) && (c <=? 0x20))
  || (c =? 0x85) || (c =? 0xA0) || (c =? 0x1680)
  || ((0x2000 <=? c) && (c <=? 0x200A))
  || (c =? 0x2028) || (c =? 0x2029) || (c =? 0x202F) || (c =? 0x205F)
  || (c =? 0x3000).

Fixpoint lstrip (s : str) : str :=
  match s with
  | [] => []
  | c :: s' => if isspace c then lstrip s' else s
  end.

Definition rstrip (s : str) : str := reverse (lstrip (reverse s)).

(** [s.strip()] with no argument: whitespace removed at both ends. *)
Definition strip (s : str) : str := rstrip (lstrip s).

(** [s == ''] *)
Definition is_empty_str (s : str) : bool :=
  match s with [] => true | _ => false end.

(** ** [str.startswith], [in], [str.replace] *)

Fixpoint startswith (s pre : str) : bool :=
  match pre, s with
  | [], _ => true
  | _ :: _, [] => false
  | p :: pre', c :: s' => (c =? p) && startswith s' pre'
  end.

(** [sub in s] *)
Fixpoint contains (s sub : str) : bool :=
  startswith s sub ||
  match s with
  | [] => false
  | _ :: s' => contains s' sub
  end.

(** The left-to-right scan of [str.replace] for a non-empty [old]: at a
    position where [old] starts, [new] is emitted and the scan resumes
    after the match ([skip] counts the matched characters still to be
    passed over); elsewhere the character is copied. *)
Fixpoint replace_scan (old new : str) (skip : nat) (s : str) : str :=
  match s with
  | [] => []
  | c :: s' =>
      match skip with
      | S k => replace_scan old new k s'
      | O =>
          if startswith s old
          then new ++ replace_scan old new (pred (len old)) s'
          else c :: replace_scan old new 0 s'
      end
  end.

(** [s.replace(old, new)]: every leftmost non-overlapping occurrence of
    [old] becomes [new]; an empty [old] matches before every character
    and at the end. *)
Definition replace (s old new : str) : str :=
  match old with
  | [] => new ++ flat_map (fun c => c :: new) s
  | _ :: _ => replace_scan old new 0 s
  end.

(** ** UTF-8 *)

(** One code point as UTF-8; a surrogate has no encoding
    ([UnicodeEncodeError]). *)
Definition utf8_encode_char (c : codepoint) : option bytes :=
  if c <? 0x80 then Some [c]
  else if c <? 0x800 then Some [0xC0 + c / 64; 0x80 + c mod 64]
  else if c <? 0x10000 then
    if is_surrogate c then None
    else Some [0xE0 + c / 4096; 0x80 + (c / 64) mod 64; 0x80 + c mod 64]
  else if c <? 0x110000 then
    Some [0xF0 + c / 262144; 0x80 + (c / 4096) mod 64;
          0x80 + (c / 64) mod 64; 0x80 + c mod 64]
  else None.

(** [s.encode('utf-8')]; [None] stands for the exception. *)
Fixpoint encode_utf8 (s : str) : option bytes :=
  match s with
  | [] => Some []
  | c :: s' =>
      match utf8_encode_char c, encode_utf8 s' with
      | Some b, Some bs => Some (b ++ bs)
      | _, _ => None
      end
  end.

Definition is_continuation (b : N) : bool := (0x80 <=? b) && (b <? 0xC0).

(** [b.decode('utf-8')], strict: overlong forms, surrogates, truncated
    sequences and values above [U+10FFFF] are refused. *)
Fixpoint decode_utf8 (bs : bytes) : option str :=
  match bs with
  | [] => Some []
  | b0 :: r0 =>
      if b0 <? 0x80 then cons b0 <$> decode_utf8 r0
      else if b0 <? 0xC2 then None
      else if b0 <? 0xE0 then
        match r0 with
        | b1 :: r1 =>
            if is_continuation b1
            then cons ((b0 - 0xC0) * 64 + (b1 - 0x80)) <$> decode_utf8 r1
            else None
        | _ => None
        end
      else if b0 <? 0xF0 then
        match r0 with
        | b1 :: b2 :: r2 =>
            let c := (b0 - 0xE0) * 4096 + (b1 - 0x80) * 64 + (b2 - 0x80) in
            if is_continuation b1 && is_continuation b2
               && (0x800 <=? c) && negb (is_surrogate c)
            then cons c <$> decode_utf8 r2
            else None
        | _ => None
        end
      else if b0 <? 0xF5 then
        match r0 with
        | b1 :: b2 :: b3 :: r3 =>
            let c := (b0 - 0xF0) * 262144 + (b1 - 0x80) * 4096
                     + (b2 - 0x80) * 64 + (b3 - 0x80) in
            if is_continuation b1 && is_continuation b2 && is_continuation b3
               && (0x10000 <=? c) && (c <? 0x110000)
            then cons c <$> decode_utf8 r3
            else None
        | _ => None
        end
      else None
  end.

(** * The chat client's objects *)

(** What the dispatcher can observe of a produced value: the outcome of
    each [isinstance] test it performs (a class may inherit from several
    of the tested classes, so the tests are independent), the attribute
    it reads from a message, the characters of a [str] and the result of
    [repr]. *)
Record object := {
  is_Message : bool;
  is_File : bool;
  is_Embed : bool;
  is_PaginatorInterface : bool;
  is_str : bool;
  jump_url : str;
  chars : str;
  repr : str;
}.

(** [discord.AllowedMentions]: one flag per kind of notification. *)
Record AllowedMentions := {
  everyone : bool;
  users : bool;
  roles : bool;
  replied_user : bool;
}.

(** [discord.AllowedMentions.none()] *)
Definition AllowedMentions_none : AllowedMentions :=
  {| everyone := false; users := false; roles := false; replied_user := false |}.

(** Accounts, channels and roles expose their mention literal. *)
Class Mentionable (A : Type) := mention : A → str.

Record User := { user_id : N; user_mention : str }.
Record Channel := { channel_id : N; channel_mention : str }.
Record Role := { role_id : N; role_mention : str }.

Global Instance User_mentionable : Mentionable User := user_mention.
Global Instance Channel_mentionable : Mentionable Channel := channel_mention.
Global Instance Role_mentionable : Mentionable Role := role_mention.

(** [bot.http.token] is [None] before login and a [str] after. *)
Record Bot := { http_token : option str }.

Record Message := {
  mentions : list User;
  channel_mentions : list Channel;
  role_mentions : list Role;
}.

Record Interaction := { interaction_id : N }.

(** The invocation context; [interaction] is [getattr(ctx, 'interaction', None)]. *)
Record Context := {
  author : User;
  bot : Bot;
  message : Message;
  interaction : option Interaction;
}.

(** [discord.File(filename=..., fp=io.BytesIO(...))] *)
Record File := { filename : str; fp : bytes }.

(** ** The paginator widget *)

(** Modelled from the spec: [WrappedPaginator] and [PaginatorInterface]
    live in [jishaku.paginators], another module of the package.  The
    widget is constructed with a page-size budget and a fence prefix and
    suffix and exposes [add_line]; its pages are the added text cut into
    consecutive pieces, each wrapped in the prefix and the suffix and
    capped by the budget, so that stripping the fences and concatenating
    gives the text back. *)
Record WrappedPaginator := {
  prefix : str;
  suffix : str;
  max_size : nat;
  pieces : list str;
}.

Definition WrappedPaginator_new (prefix suffix : str) (max_size : nat) : WrappedPaginator :=
  {| prefix := prefix; suffix := suffix; max_size := max_size; pieces := [] |}.

(** Modelled from the spec: the room a page leaves for content once the
    headroom for both fences is taken from the budget. *)
Definition page_room (p : WrappedPaginator) : nat :=
  (max_size p - len (prefix p) - len (suffix p))%nat.

(** Modelled from the spec: [s] cut into consecutive pieces of at most
    [n] characters ([fuel] bounds the number of pieces). *)
Fixpoint cut (fuel n : nat) (s : str) : list str :=
  match fuel, s with
  | O, _ | _, [] => []
  | S fuel', _ :: _ => take n s :: cut fuel' n (drop n s)
  end.

(** Modelled from the spec: [paginator.add_line(line)]; a paginator whose
    fences fill the whole budget has no room for content ([None]). *)
Definition add_line (p : WrappedPaginator) (line : str) : option WrappedPaginator :=
  match page_room p with
  | O => None
  | S _ as room =>
      Some {| prefix := prefix p; suffix := suffix p; max_size := max_size p;
              pieces := pieces p ++ cut (len line) room line |}
  end.

(** Modelled from the spec: the raw text of each page, fences included. *)
Definition pages (p : WrappedPaginator) : list str :=
  (λ piece, prefix p ++ piece ++ suffix p) <$> pieces p.

(** Modelled from the spec: the companion interface binds a paginator to
    the client and to an owning caller. *)
Record PaginatorInterface := {
  interface_bot : Bot;
  paginator : WrappedPaginator;
  owner : User;
}.

(** ** Calls on the chat client *)

(** The [file=] argument of a send: the produced value itself or a file
    built by the dispatcher. *)
Inductive attachment :=
  | result_file (o : object)
  | built_file (f : File).

(** The receiver of [send_to]: the produced value itself or an interface
    built by the dispatcher. *)
Inductive interface :=
  | result_interface (o : object)
  | built_interface (i : PaginatorInterface).

(** One delivery: [ctx.send(content, file=, embed=, allowed_mentions=)]
    with [None] for an argument left out, or [interface.send_to(ctx)]. *)
Inductive call :=
  | ctx_send (content : option str) (file : option attachment)
             (embed : option object) (allowed_mentions : option AllowedMentions)
  | send_to (i : interface) (ctx : Context).

Inductive exception :=
  | UnicodeEncodeError
  | RuntimeError.

(** A computation against the channel: it reads and extends the list of
    deliveries made so far and returns a value or raises. *)
Definition IO (A : Type) : Type := list call → (exception + A) * list call.

Global Instance IO_ret : MRet IO := λ A x log, (inr x, log).
Global Instance IO_bind : MBind IO := λ A B f m log,
  match m log with
  | (inl e, log') => (inl e, log')
  | (inr x, log') => f x log'
  end.

Definition raise {A} (e : exception) : IO A := λ log, (inl e, log).

Definition or_raise {A} (e : exception) (o : option A) : IO A :=
  match o with
  | Some x => mret x
  | None => raise e
  end.

(** * The feature *)

(** Values bound in the REPL's variable dictionary. *)
Inductive value :=
  | PyNone
  | PyObject (o : object)
  | PyUser (u : User)
  | PyChannel (c : Channel)
  | PyRole (r : Role).

(** Modelled from the spec: [Scope] lives in [jishaku.repl], another
    module of the package.  A scope is a mapping from identifier to
    value, and [Scope()] constructs an empty one. *)
Definition Scope := gmap str value.
Definition Scope_empty : Scope := ∅.

(** Scopes are objects with an identity: the store maps references to
    the current content of each scope. *)
Definition ref := positive.
Abbreviation store := (gmap ref Scope).

(** [Scope()]: a new object, distinct from every live one. *)
Definition Scope_new (h : store) : ref * store :=
  let r := fresh (dom h) in (r, <[r := Scope_empty]> h).

Record PythonFeature := {
  self_bot : Bot;
  _scope : ref;
  retain : bool;
  last_result : value;
}.

(** [PythonFeature.__init__]; [Flags_RETAIN] is the flag read at
    initialization. *)
Definition PythonFeature_init (b : Bot) (Flags_RETAIN : bool) (h : store)
  : PythonFeature * store :=
  let '(r, h') := Scope_new h in
  ({| self_bot := b; _scope := r; retain := Flags_RETAIN; last_result := PyNone |}, h').

(** The [scope] property. *)
Definition scope (self : PythonFeature) (h : store) : ref * store :=
  if retain self then (_scope self, h) else Scope_new h.

(** ** Result handling *)

(** Truth value of a [str]: non-empty. *)
Definition truthy (s : str) : bool := negb (is_empty_str s).

Section ResultHandling.

(** What the chat client returns for a delivery, given the deliveries
    made before it. *)
Variable client : list call → call → object.

(** [use_file_check(ctx, size)], the inline file preview test, is
    imported from [jishaku.paginators]. *)
Variable use_file_check : Context → nat → bool.

(** [await ctx.send(...)] and [await interface.send_to(ctx)] *)
Definition deliver (c : call) : IO object :=
  λ log, (inr (client log c), log ++ [c]).

Definition jsk_python_result_handling
    (self : PythonFeature) (ctx : Context) (result : object) : IO object :=
  if is_Message result then
    deliver (ctx_send (Some (lit "<Message <" ++ jump_url result ++ lit ">>"))
                      None None None)
  else if is_File result then
    deliver (ctx_send None (Some (result_file result)) None None)
  else if is_Embed result then
    deliver (ctx_send None None (Some result) None)
  else if is_PaginatorInterface result then
    deliver (send_to (result_interface result) ctx)
  else
    let result := if negb (is_str result) then repr result else chars result in
    if (len result <=? 2000)%nat then
      let result := if is_empty_str (strip result) then [0x200b] else result in
      let result :=
        match http_token (self_bot self) with
        | Some token =>
            if truthy token then replace result token (lit "[token omitted]")
            else result
        | None => result
        end in
      deliver (ctx_send (Some result) None None (Some AllowedMentions_none))
    else if use_file_check ctx (len result) then
      content ← or_raise UnicodeEncodeError (encode_utf8 result);
      deliver (ctx_send None
                 (Some (built_file {| filename := lit "output.py"; fp := content |}))
                 None None)
    else
      paginator ←
        or_raise RuntimeError
          (add_line (WrappedPaginator_new (lit "```py") (lit "```") 1980) result);
      let interface :=
        {| interface_bot := bot ctx; paginator := paginator; owner := author ctx |} in
      deliver (send_to (built_interface interface) ctx).

End ResultHandling.

(** ** Argument binding *)

(** [f"__{kind}_mention_{index}"] *)
Definition mention_name (kind : string) (index : nat) : str :=
  lit "__" ++ lit kind ++ lit "_mention_" ++ lit (pretty index).

(** One [for index, x in enumerate(xs)] loop of
    [jsk_python_get_convertables], from [index] on: each entity is bound
    under its indexed name and its mention literal is mapped to that
    name. *)
Fixpoint bind_mentions {A} `{Mentionable A} (kind : string) (inj : A → value)
    (index : nat) (xs : list A) (dicts : gmap str value * gmap str str)
  : gmap str value * gmap str str :=
  match xs with
  | [] => dicts
  | x :: xs' =>
      bind_mentions kind inj (S index) xs'
        (<[mention_name kind index := inj x]> dicts.1,
         <[mention x := mention_name kind index]> dicts.2)
  end.

Section Convertables.

(** [get_var_dict_from_ctx] is imported from [jishaku.repl] and
    [Flags.SCOPE_PREFIX] from [jishaku.flags]. *)
Variable get_var_dict_from_ctx : Context → str → gmap str value.
Variable Flags_SCOPE_PREFIX : str.

Definition jsk_python_get_convertables (self : PythonFeature) (ctx : Context)
  : gmap str value * gmap str str :=
  let arg_dict := get_var_dict_from_ctx ctx Flags_SCOPE_PREFIX in
  let arg_dict := <[lit "_" := last_result self]> arg_dict in
  let convertables : gmap str str := ∅ in
  match interaction ctx with
  | None =>
      let dicts := (arg_dict, convertables) in
      let dicts := bind_mentions "user" PyUser 0 (mentions (message ctx)) dicts in
      let dicts := bind_mentions "channel" PyChannel 0 (channel_mentions (message ctx)) dicts in
      let dicts := bind_mentions "role" PyRole 0 (role_mentions (message ctx)) dicts in
      dicts
  | Some _ => (arg_dict, convertables)
  end.

End Convertables.

(** * Vocabulary of the properties *)

(** [sub] occurs in [s] as a contiguous run of characters. *)
Definition occurs (sub s : str) : Prop := ∃ pre post, s = pre ++ sub ++ post.

(** A text that is empty or made of whitespace only. *)
Definition blank (s : str) : Prop := Forall (λ c, isspace c = true) s.

(** [out] is [s] with the occurrences of [old], taken from the left and
    without overlap, each replaced by [new], and every other character
    kept. *)
Inductive redacted (old new : str) : str → str → Prop :=
  | redacted_end : redacted old new [] []
  | redacted_hit s out :
      redacted old new s out → redacted old new (old ++ s) (new ++ out)
  | redacted_keep c s out :
      ¬ old `prefix_of` c :: s →
      redacted old new s out → redacted old new (c :: s) (c :: out).

(** The text a [str] can hold and UTF-8 can encode: code points that are
    not surrogates. *)
Definition encodable (s : str) : Prop :=
  Forall (λ c, is_codepoint c = true ∧ is_surrogate c = false) s.

(** ** Dispatch *)

(** The seven ways a produced value is delivered, in the order in which
    the dispatcher tries them. *)
Inductive branch :=
  | message_branch
  | file_branch
  | embed_branch
  | interface_branch
  | short_text_branch
  | inline_file_branch
  | paginated_branch.

Global Instance branch_eq_dec : EqDecision branch.
Proof. solve_decision. Defined.

Definition is_text_branch (b : branch) : bool :=
  match b with
  | short_text_branch | inline_file_branch | paginated_branch => true
  | _ => false
  end.

(** A value of message, file, embed or paginator-interface type. *)
Definition chat_native (result : object) : bool :=
  is_Message result || is_File result || is_Embed result
  || is_PaginatorInterface result.

(** The text the text rules work on: a [str] as it is, any other value
    through [repr]. *)
Definition text_of (result : object) : str :=
  if is_str result then chars result else repr result.

(** First match wins: a branch is selected when its own test succeeds and
    the test of every branch before it fails. *)
Definition selects (use_file_check : Context → nat → bool) (ctx : Context)
    (result : object) (b : branch) : bool :=
  let n := len (text_of result) in
  match b with
  | message_branch => is_Message result
  | file_branch => negb (is_Message result) && is_File result
  | embed_branch =>
      negb (is_Message result) && negb (is_File result) && is_Embed result
  | interface_branch =>
      negb (is_Message result) && negb (is_File result)
      && negb (is_Embed result) && is_PaginatorInterface result
  | short_text_branch => negb (chat_native result) && (n <=? 2000)%nat
  | inline_file_branch =>
      negb (chat_native result) && negb (n <=? 2000)%nat && use_file_check ctx n
  | paginated_branch =>
      negb (chat_native result) && negb (n <=? 2000)%nat
      && negb (use_file_check ctx n)
  end.

(** The branch a delivery belongs to, read off the arguments of the call:
    each branch hands the client a different combination. *)
Definition branch_of_call (c : call) : option branch :=
  match c with
  | ctx_send (Some _) None None None => Some message_branch
  | ctx_send None (Some (result_file _)) None None => Some file_branch
  | ctx_send None None (Some _) None => Some embed_branch
  | send_to (result_interface _) _ => Some interface_branch
  | ctx_send (Some _) None None (Some _) => Some short_text_branch
  | ctx_send None (Some (built_file _)) None None => Some inline_file_branch
  | send_to (built_interface _) _ => Some paginated_branch
  | _ => None
  end.

(** A delivery forwards a value when the value itself is what the client
    is handed: as the file, as the embed or as the receiver of the call. *)
Definition forwards (result : object) (c : call) : Prop :=
  match c with
  | ctx_send _ file embed _ =>
      file = Some (result_file result) ∨ embed = Some result
  | send_to i _ => i = result_interface result
  end.

(** The placeholder and the redaction marker of the short-text rule. *)
Definition placeholder : str := [0x200b].
Definition marker : str := lit "[token omitted]".

(** The content of a short-text delivery: the empty-message guard, then
    the redaction of a credential that is set and non-empty. *)
Definition short_text_content (token : option str) (t : str) : str :=
  let t := if is_empty_str (strip t) then placeholder else t in
  match token with
  | Some token => if truthy token then replace t token marker else t
  | None => t
  end.

(** The short-text delivery as one call. *)
Definition short_text_call (content : str) : call :=
  ctx_send (Some content) None None (Some AllowedMentions_none).

(** The brackets that open and close the marker. *)
Definition open_bracket : codepoint := 0x5B.
Definition close_bracket : codepoint := 0x5D.

(** ** Mentions *)

(** The mention literals of a message, in the order the binder visits
    them. *)
Definition mention_texts (m : Message) : list str :=
  (mention <$> mentions m) ++ (mention <$> channel_mentions m)
  ++ (mention <$> role_mentions m).

(** The identifiers [__kind_mention_0 .. __kind_mention_{n-1}]. *)
Definition mention_names (kind : string) (n : nat) : list str :=
  mention_name kind <$> seq 0 n.

(** The (literal, identifier) pairs that one loop of the binder writes,
    in visiting order, counting from [index]. *)
Definition mention_pairs {A} `{Mentionable A} (kind : string) (index : nat)
    (xs : list A) : list (str * str) :=
  imap (λ j x, (mention x, mention_name kind (index + j))) xs.

(** The pairs of the three loops, in the order the binder runs them. *)
Definition message_pairs (m : Message) : list (str * str) :=
  mention_pairs "user" 0 (mentions m)
  ++ mention_pairs "channel" 0 (channel_mentions m)
  ++ mention_pairs "role" 0 (role_mentions m).

(** The mention literal of a bound value that is an account, a channel or
    a role. *)
Definition value_mention (v : value) : option str :=
  match v with
  | PyUser u => Some (mention u)
  | PyChannel c => Some (mention c)
  | PyRole r => Some (mention r)
  | PyNone | PyObject _ => None
  end.

(** ** Sample values *)

(** A [str] value and a message value, as the dispatcher sees them. *)
Definition str_object (s : str) : object :=
  {| is_Message := false; is_File := false; is_Embed := false;
     is_PaginatorInterface := false; is_str := true;
     jump_url := []; chars := s; repr := lit "'" ++ s ++ lit "'" |}.

Definition message_object (url : str) : object :=
  {| is_Message := true; is_File := false; is_Embed := false;
     is_PaginatorInterface := false; is_str := false;
     jump_url := url; chars := []; repr := lit "<Message>" |}.

(** A client that answers each delivery with the message it created,
    numbered by its position in the channel. *)
Definition sample_client (log : list call) (c : call) : object :=
  message_object (lit "https://discord.com/channels/1/2/" ++ lit (pretty (length log))).

Definition alice : User := {| user_id := 11; user_mention := lit "<@11>" |}.
Definition bob : User := {| user_id := 12; user_mention := lit "<@12>" |}.
Definition general : Channel := {| channel_id := 21; channel_mention := lit "<#21>" |}.
Definition admins : Role := {| role_id := 31; role_mention := lit "<@&31>" |}.

Definition bot_with (token : option str) : Bot := {| http_token := token |}.

Definition feature_with (token : option str) : PythonFeature :=
  {| self_bot := bot_with token; _scope := 1%positive; retain := true;
     last_result := PyNone |}.

Definition sample_message : Message :=
  {| mentions := [alice; bob]; channel_mentions := [general];
     role_mentions := [admins] |}.

Definition context_with (token : option str) : Context :=
  {| author := alice; bot := bot_with token;
     message := sample_message; interaction := None |}.

Definition sample_ctx : Context := context_with (Some (lit "s3cr3t")).

Definition sample_interaction_ctx : Context :=
  {| author := alice; bot := bot_with (Some (lit "s3cr3t"));
     message := sample_message; interaction := Some {| interaction_id := 7 |} |}.

(** * Facts about the text operations *)

Section TextFacts.

Implicit Types s pre sub old new out : str.

Lemma startswith_prefix s pre : startswith s pre = true ↔ pre `prefix_of` s.
Proof.
  revert s; induction pre as [|p pre IH]; intros [|c s]; simpl.
  - split; [intros _; apply prefix_nil | done].
  - split; [intros _; apply prefix_nil | done].
  - split; [done | intros H; by apply prefix_nil_not in H].
  - rewrite andb_true_iff, N.eqb_eq, IH. split.
    + intros [-> H]. by apply prefix_cons.
    + intros H. split.
      * symmetry. by eapply prefix_cons_inv_1.
      * by eapply prefix_cons_inv_2.
Qed.

Lemma occurs_nil sub : occurs sub [] → sub = [].
Proof.
  intros (pre & post & H). symmetry in H.
  apply app_eq_nil in H as [_ H]. by apply app_eq_nil in H as [H _].
Qed.

Lemma occurs_cons sub c s :
  occurs sub (c :: s) ↔ sub `prefix_of` c :: s ∨ occurs sub s.
Proof.
  split.
  - intros ([|c' pre] & post & H); simpl in H.
    + left. by exists post.
    + right. injection H as _ ->. by exists pre, post.
  - intros [[post ->] | (pre & post & ->)].
    + by exists [], post.
    + by exists (c :: pre), post.
Qed.

Lemma contains_occurs s sub : contains s sub = true ↔ occurs sub s.
Proof.
  induction s as [|c s IH]; cbn [contains].
  - rewrite orb_false_r, startswith_prefix. split.
    + intros [k H]. by exists [], k.
    + intros H. apply occurs_nil in H as ->. apply prefix_nil.
  - rewrite orb_true_iff, startswith_prefix, IH. symmetry. apply occurs_cons.
Qed.

Lemma contains_false s sub : contains s sub = false ↔ ¬ occurs sub s.
Proof. rewrite <- contains_occurs. by destruct (contains s sub). Qed.

(** An occurrence in [new ++ r] lies in [new], lies in [r], or runs
    over the last character of [new]. *)
Lemma occurs_app sub new r l :
  last new = Some l →
  occurs sub (new ++ r) → occurs sub new ∨ occurs sub r ∨ l ∈ sub.
Proof.
  intros Hl (pre & post & H). symmetry in H.
  apply app_eq_inv in H as [(k & -> & ->) | (k & -> & H)].
  - right; left. by exists k, post.
  - apply app_eq_inv in H as [(k' & -> & ->) | (k' & -> & ->)].
    + destruct k as [|c k].
      * right; left. by exists [], post.
      * right; right. rewrite last_app in Hl.
        destruct (last (c :: k)) as [y|] eqn:Hk.
        -- injection Hl as ->. apply elem_of_app; left.
           by apply last_Some_elem_of.
        -- by apply last_None in Hk.
    + left. by exists pre, k'.
Qed.

(** ** [strip] *)

Lemma lstrip_nil s : lstrip s = [] ↔ blank s.
Proof.
  unfold blank. induction s as [|c s IH]; simpl.
  - split; [constructor | done].
  - destruct (isspace c) eqn:Hc.
    + rewrite IH. split; [by constructor | by inversion 1].
    + split; [done | inversion 1; congruence].
Qed.

Lemma lstrip_blank s : blank (lstrip s) → blank s.
Proof.
  unfold blank. induction s as [|c s IH]; simpl; [done|].
  destruct (isspace c) eqn:Hc; [|done].
  intros H. constructor; auto.
Qed.

Lemma strip_empty s : is_empty_str (strip s) = true ↔ blank s.
Proof.
  assert (∀ t : str, is_empty_str t = true ↔ t = []) as ->
    by (intros [|??]; simpl; split; congruence).
  unfold strip, rstrip. split.
  - intros H. apply (f_equal reverse) in H.
    rewrite reverse_involutive, reverse_nil in H.
    apply lstrip_nil in H. apply lstrip_blank. unfold blank in *.
    by apply Forall_reverse.
  - intros H. apply lstrip_nil in H. by rewrite H.
Qed.

Lemma strip_not_empty s : is_empty_str (strip s) = false ↔ ¬ blank s.
Proof. rewrite <- strip_empty. by destruct (is_empty_str (strip s)). Qed.

End TextFacts.

(** ** [replace] *)

Section ReplaceFacts.

Variables old new : str.

Lemma replace_scan_skip k s :
  replace_scan old new k s = replace_scan old new 0 (drop k s).
Proof.
  revert k; induction s as [|c s IH]; intros [|k]; simpl; auto.
Qed.

(** The scan, one step at a time. *)
Lemma replace_scan_cons c s :
  replace_scan old new 0 (c :: s) =
  if startswith (c :: s) old
  then new ++ replace_scan old new 0 (drop (pred (len old)) s)
  else c :: replace_scan old new 0 s.
Proof.
  cbn [replace_scan]. destruct (startswith (c :: s) old); [|done].
  by rewrite replace_scan_skip.
Qed.

Lemma replace_nonempty s :
  old ≠ [] → replace s old new = replace_scan old new 0 s.
Proof. unfold replace. by destruct old. Qed.

Lemma replace_scan_hit s rest :
  old ≠ [] → s = old ++ rest →
  replace_scan old new 0 s = new ++ replace_scan old new 0 rest.
Proof.
  intros Hold E. destruct s as [|c s].
  { symmetry in E. by apply app_eq_nil in E as [? _]. }
  rewrite replace_scan_cons.
  assert (startswith (c :: s) old = true) as ->.
  { apply startswith_prefix. by exists rest. }
  do 2 f_equal.
  assert (len old = S (pred (len old))) as Hlen.
  { unfold len. destruct old; [done | simpl; lia]. }
  change (drop (pred (len old)) s) with (drop (S (pred (len old))) (c :: s)).
  rewrite <- Hlen, E. apply drop_app_length.
Qed.

Lemma replace_scan_keep c s :
  ¬ old `prefix_of` c :: s →
  replace_scan old new 0 (c :: s) = c :: replace_scan old new 0 s.
Proof.
  intros H. rewrite replace_scan_cons.
  destruct (startswith (c :: s) old) eqn:E; [|done].
  by apply startswith_prefix in E.
Qed.

(** Induction along the scan: a match consumes [old], a miss one
    character. *)
Lemma replace_scan_ind (P : str → str → Prop) :
  old ≠ [] →
  P [] [] →
  (∀ rest, P rest (replace_scan old new 0 rest) →
           P (old ++ rest) (new ++ replace_scan old new 0 rest)) →
  (∀ c s, ¬ old `prefix_of` c :: s →
          P s (replace_scan old new 0 s) →
          P (c :: s) (c :: replace_scan old new 0 s)) →
  ∀ s, P s (replace_scan old new 0 s).
Proof.
  intros Hold Hnil Hhit Hkeep s.
  remember (length s) as n eqn:Hn.
  revert s Hn. induction (lt_wf n) as [n _ IH]. intros [|c s] ->; [done|].
  destruct (decide (old `prefix_of` c :: s)) as [[rest E]|Hno].
  - rewrite E, (replace_scan_hit _ rest) by done.
    apply Hhit. eapply IH; [|done].
    rewrite E, length_app. destruct old; [done | simpl; lia].
  - rewrite replace_scan_keep by done.
    apply Hkeep; [done|]. eapply IH; [|done]. simpl; lia.
Qed.

Lemma replace_redacted s :
  old ≠ [] → redacted old new s (replace s old new).
Proof.
  intros Hold. rewrite replace_nonempty by done.
  apply (replace_scan_ind (redacted old new)); try done; by constructor.
Qed.

(** What [redacted] describes is unique, so it determines [replace]. *)
Lemma redacted_replace s out :
  old ≠ [] → redacted old new s out → out = replace s old new.
Proof.
  intros Hold H. rewrite replace_nonempty by done.
  induction H as [|s out _ IH|c s out Hno _ IH].
  - done.
  - by rewrite (replace_scan_hit _ s), IH.
  - by rewrite replace_scan_keep, IH.
Qed.

(** A text without the fresh first character of [new] that starts the
    output also starts the input. *)
Lemma replace_scan_prefix h u s :
  old ≠ [] → head new = Some h → h ∉ u →
  u `prefix_of` replace_scan old new 0 s → u `prefix_of` s.
Proof.
  intros Hold Hh. revert u.
  apply (replace_scan_ind (λ s out, ∀ u, h ∉ u → u `prefix_of` out → u `prefix_of` s));
    try done.
  - intros rest _ [|x u] Hu Hpre; [apply prefix_nil|].
    destruct new as [|h' new']; [done|]. injection Hh as ->.
    simpl in Hpre. apply prefix_cons_inv_1 in Hpre as ->.
    exfalso. apply Hu. by left.
  - intros c t _ IH [|x u] Hu Hpre; [apply prefix_nil|].
    pose proof (prefix_cons_inv_1 _ _ _ _ Hpre) as ->.
    apply prefix_cons, IH.
    + intros Hin. apply Hu. by right.
    + by eapply prefix_cons_inv_2.
Qed.

(** When [old] neither occurs in [new] nor holds the first or last
    character of [new], nothing of [old] is left after the replacement. *)
Lemma replace_scan_clean h l s :
  old ≠ [] → head new = Some h → last new = Some l →
  h ∉ old → l ∉ old → ¬ occurs old new →
  ¬ occurs old (replace_scan old new 0 s).
Proof.
  intros Hold Hh Hl Hho Hlo Hnew.
  apply (replace_scan_ind (λ _ out, ¬ occurs old out)); try done.
  - intros H. by apply occurs_nil in H.
  - intros rest IH H. apply (occurs_app _ _ _ l) in H as [H|[H|H]]; done.
  - intros c t Hno IH H. apply occurs_cons in H as [H|H]; [|done].
    apply Hno. rewrite <- replace_scan_keep in H by done.
    by apply (replace_scan_prefix h) in H.
Qed.

End ReplaceFacts.

(** ** UTF-8 *)

Section Utf8Facts.

#[local] Ltac Zify.zify_post_hook ::= Z.to_euclidean_division_equations.

#[local] Ltac decide_tests :=
  repeat match goal with
    | |- context [?a <? ?b] =>
        first [ replace (a <? b) with true by (symmetry; apply N.ltb_lt; lia)
              | replace (a <? b) with false by (symmetry; apply N.ltb_ge; lia) ]
    | |- context [?a <=? ?b] =>
        first [ replace (a <=? b) with true by (symmetry; apply N.leb_le; lia)
              | replace (a <=? b) with false by (symmetry; apply N.leb_gt; lia) ]
    end.

Lemma utf8_decode_encoded_char c b rest :
  utf8_encode_char c = Some b →
  decode_utf8 (b ++ rest) = cons c <$> decode_utf8 rest.
Proof.
  unfold utf8_encode_char, is_surrogate.
  destruct (N.ltb_spec c 0x80).
  { intros [= <-]. cbn [app decode_utf8]. by decide_tests. }
  destruct (N.ltb_spec c 0x800).
  { intros [= <-]. cbn [app decode_utf8]. unfold is_continuation.
    decide_tests. cbn [andb]. do 2 f_equal. lia. }
  destruct (N.ltb_spec c 0x10000).
  { destruct (N.leb_spec 0xD800 c); destruct (N.leb_spec c 0xDFFF);
      cbn [andb]; try done; try (exfalso; lia); intros [= <-];
      cbn [app decode_utf8];
      unfold is_continuation, is_surrogate; cbv zeta;
      match goal with
      | |- context [cons ?x <$> _] => replace x with c by lia
      end; decide_tests; done. }
  destruct (N.ltb_spec c 0x110000); [|done].
  intros [= <-]. cbn [app decode_utf8]. unfold is_continuation. cbv zeta.
  match goal with
  | |- context [cons ?x <$> _] => replace x with c by lia
  end.
  by decide_tests.
Qed.

(** Decoding what [encode_utf8] produced gives the text back. *)
Lemma utf8_roundtrip s b : encode_utf8 s = Some b → decode_utf8 b = Some s.
Proof.
  revert b; induction s as [|c s IH]; intros b; cbn [encode_utf8].
  - by intros [= <-].
  - destruct (utf8_encode_char c) as [bc|] eqn:Hc; [|done].
    destruct (encode_utf8 s) as [bs|]; [|done]. intros [= <-].
    by rewrite (utf8_decode_encoded_char c), (IH bs).
Qed.

Lemma utf8_encode_char_Some c :
  is_codepoint c = true → is_surrogate c = false →
  is_Some (utf8_encode_char c).
Proof.
  unfold is_codepoint, utf8_encode_char. intros -> ->.
  by repeat destruct (_ <? _).
Qed.

(** A text without surrogates always encodes. *)
Lemma utf8_encodable s : encodable s → is_Some (encode_utf8 s).
Proof.
  induction 1 as [|c s [Hc Hs] _ [bs IH]]; cbn [encode_utf8]; [done|].
  destruct (utf8_encode_char_Some c Hc Hs) as [bc ->]. by rewrite IH.
Qed.

(** A surrogate anywhere in the text makes the encoding fail. *)
Lemma utf8_surrogate s c :
  c ∈ s → is_surrogate c = true → encode_utf8 s = None.
Proof.
  intros Hin Hc. induction Hin as [c s|c x s _ IH]; cbn [encode_utf8].
  - unfold utf8_encode_char. rewrite Hc.
    unfold is_surrogate in Hc. apply andb_true_iff in Hc as [H1 H2].
    apply N.leb_le in H1, H2.
    replace (c <? 0x80) with false by (symmetry; apply N.ltb_ge; lia).
    replace (c <? 0x800) with false by (symmetry; apply N.ltb_ge; lia).
    by replace (c <? 0x10000) with true by (symmetry; apply N.ltb_lt; lia).
  - rewrite (IH Hc). by destruct (utf8_encode_char x).
Qed.

End Utf8Facts.

(** * Facts about the paginator *)

Section PaginatorFacts.

Lemma cut_concat fuel n s :
  (0 < n)%nat → (length s ≤ fuel)%nat → concat (cut fuel n s) = s.
Proof.
  intros Hn. revert s; induction fuel as [|fuel IH]; intros [|c s] Hlen;
    simpl in *; try done; try lia.
  destruct n as [|n]; [lia|]. simpl.
  rewrite IH by (rewrite length_drop; lia).
  by rewrite take_drop.
Qed.

Lemma cut_bound fuel n s :
  Forall (λ piece : str, (len piece ≤ n)%nat) (cut fuel n s).
Proof.
  revert s; induction fuel as [|fuel IH]; intros [|c s]; simpl; try done.
  constructor; [|apply IH].
  unfold len. change (c :: s) with ([c] ++ s) at 1.
  rewrite length_take. lia.
Qed.

Lemma pages_bound p :
  Forall (λ piece : str, (len piece ≤ page_room p)%nat) (pieces p) →
  (len (prefix p) + len (suffix p) ≤ max_size p)%nat →
  Forall (λ page : str, (len page ≤ max_size p)%nat) (pages p).
Proof.
  unfold pages, page_room, len. intros H Hroom.
  apply Forall_fmap. eapply Forall_impl; [exact H|]. simpl.
  intros piece Hpiece. rewrite !length_app. lia.
Qed.

End PaginatorFacts.

(** * The result dispatcher *)

Section DispatchFacts.

Variable client : list call → call → object.
Variable use_file_check : Context → nat → bool.
Variables (self : PythonFeature) (ctx : Context) (result : object).

#[local] Abbreviation handling :=
  (jsk_python_result_handling client use_file_check self ctx result).

Lemma chat_native_false :
  chat_native result = false ↔
  is_Message result = false ∧ is_File result = false
  ∧ is_Embed result = false ∧ is_PaginatorInterface result = false.
Proof.
  unfold chat_native. rewrite !orb_false_iff. tauto.
Qed.

Lemma handling_message :
  is_Message result = true →
  handling =
  deliver client
    (ctx_send (Some (lit "<Message <" ++ jump_url result ++ lit ">>")) None None None).
Proof. unfold jsk_python_result_handling. by intros ->. Qed.

Lemma handling_file :
  is_Message result = false → is_File result = true →
  handling = deliver client (ctx_send None (Some (result_file result)) None None).
Proof. unfold jsk_python_result_handling. by intros -> ->. Qed.

Lemma handling_embed :
  is_Message result = false → is_File result = false →
  is_Embed result = true →
  handling = deliver client (ctx_send None None (Some result) None).
Proof. unfold jsk_python_result_handling. by intros -> -> ->. Qed.

Lemma handling_interface :
  is_Message result = false → is_File result = false →
  is_Embed result = false → is_PaginatorInterface result = true →
  handling = deliver client (send_to (result_interface result) ctx).
Proof. unfold jsk_python_result_handling. by intros -> -> -> ->. Qed.

Lemma handling_short_text :
  chat_native result = false → (len (text_of result) ≤ 2000)%nat →
  handling =
  deliver client
    (ctx_send (Some (short_text_content (http_token (self_bot self)) (text_of result)))
              None None (Some AllowedMentions_none)).
Proof.
  unfold jsk_python_result_handling, text_of.
  intros (-> & -> & -> & ->)%chat_native_false Hlen%Nat.leb_le.
  destruct (is_str result); cbn [negb]; rewrite Hlen; done.
Qed.

Lemma handling_inline_file :
  chat_native result = false → (2000 < len (text_of result))%nat →
  use_file_check ctx (len (text_of result)) = true →
  handling =
  (content ← or_raise UnicodeEncodeError (encode_utf8 (text_of result));
   deliver client
     (ctx_send None
        (Some (built_file {| filename := lit "output.py"; fp := content |}))
        None None)).
Proof.
  unfold jsk_python_result_handling, text_of.
  intros (-> & -> & -> & ->)%chat_native_false Hlen%Nat.leb_gt Hfile.
  destruct (is_str result); cbn [negb]; rewrite Hlen, Hfile; done.
Qed.

Lemma handling_paginated :
  chat_native result = false → (2000 < len (text_of result))%nat →
  use_file_check ctx (len (text_of result)) = false →
  handling =
  deliver client
    (send_to
       (built_interface
          {| interface_bot := bot ctx;
             paginator :=
               {| prefix := lit "```py"; suffix := lit "```"; max_size := 1980;
                  pieces := cut (len (text_of result)) 1972 (text_of result) |};
             owner := author ctx |})
       ctx).
Proof.
  unfold jsk_python_result_handling, text_of.
  intros (-> & -> & -> & ->)%chat_native_false Hlen%Nat.leb_gt Hfile.
  destruct (is_str result); cbn [negb]; rewrite Hlen, Hfile; done.
Qed.

End DispatchFacts.

(** ** Classification *)

Section Classification.

Variable client : list call → call → object.
Variable use_file_check : Context → nat → bool.

#[local] Abbreviation handling :=
  (jsk_python_result_handling client use_file_check).

#[local] Ltac only_branch :=
  let b := fresh "b" in
  intros b; destruct b; unfold selects, chat_native;
  repeat match goal with H : _ = _ |- _ => rewrite H end;
  cbn [negb andb orb]; split; (done || congruence).

#[local] Ltac delivered :=
  left; eexists; split; [reflexivity | reflexivity].

(** C1. The classification of a produced value is total and
    deterministic.  For every value exactly one branch is selected, the
    seven branches being tried in the order message, file, embed,
    paginator interface, short text, inline file, paginated text with the
    first match winning (non-strings enter the text rules through their
    [repr]); a value of message, file, embed or paginator-interface type
    is never given to a text branch; and the selected branch is the one
    that runs: the dispatch makes exactly one delivery, of the shape of
    that branch, the inline-file branch alone being able to stop before
    its delivery when the text cannot be encoded. *)
Theorem dispatch_total_deterministic self ctx result log :
  ∃ b : branch,
    (∀ b', selects use_file_check ctx result b' = true ↔ b' = b)
    ∧ (chat_native result = true → is_text_branch b = false)
    ∧ ((∃ c, handling self ctx result log = (inr (client log c), log ++ [c])
             ∧ branch_of_call c = Some b)
       ∨ (b = inline_file_branch
          ∧ handling self ctx result log = (inl UnicodeEncodeError, log))).
Proof.
  destruct (is_Message result) eqn:HM.
  { exists message_branch. split; [only_branch|]. split; [done|].
    rewrite handling_message by done. delivered. }
  destruct (is_File result) eqn:HF.
  { exists file_branch. split; [only_branch|]. split; [done|].
    rewrite handling_file by done. delivered. }
  destruct (is_Embed result) eqn:HE.
  { exists embed_branch. split; [only_branch|]. split; [done|].
    rewrite handling_embed by done. delivered. }
  destruct (is_PaginatorInterface result) eqn:HP.
  { exists interface_branch. split; [only_branch|]. split; [done|].
    rewrite handling_interface by done. delivered. }
  assert (chat_native result = false) as Hnative
    by (by apply chat_native_false).
  destruct (len (text_of result) <=? 2000)%nat eqn:Hlen.
  { exists short_text_branch. split; [only_branch|].
    split; [by rewrite Hnative|].
    rewrite handling_short_text by (done || by apply Nat.leb_le). delivered. }
  destruct (use_file_check ctx (len (text_of result))) eqn:Hfile.
  - exists inline_file_branch. split; [only_branch|].
    split; [by rewrite Hnative|].
    rewrite handling_inline_file by (done || by apply Nat.leb_gt).
    unfold mbind, IO_bind, or_raise.
    destruct (encode_utf8 (text_of result)) as [content|]; [delivered|].
    by right.
  - exists paginated_branch. split; [only_branch|].
    split; [by rewrite Hnative|].
    rewrite handling_paginated by (done || by apply Nat.leb_gt). delivered.
Qed.

End Classification.

(** ** Short text *)

Section ShortText.

Variable client : list call → call → object.
Variable use_file_check : Context → nat → bool.

#[local] Abbreviation handling :=
  (jsk_python_result_handling client use_file_check).

Lemma handling_short_text_run self ctx result log :
  chat_native result = false → (len (text_of result) ≤ 2000)%nat →
  handling self ctx result log =
  let c := short_text_call
             (short_text_content (http_token (self_bot self)) (text_of result)) in
  (inr (client log c), log ++ [c]).
Proof. intros Hn Hlen. by rewrite handling_short_text. Qed.

(** C3. Every short-text dispatch (text of at most 2000 characters)
    makes its one send with the allowed-mentions argument set to the
    allowance in which every kind of notification is disabled, whatever
    the content. *)
Theorem short_text_suppresses_mentions self ctx result log :
  chat_native result = false → (len (text_of result) ≤ 2000)%nat →
  ∃ content allowed,
    handling self ctx result log =
      (inr (client log (ctx_send (Some content) None None (Some allowed))),
       log ++ [ctx_send (Some content) None None (Some allowed)])
    ∧ allowed = AllowedMentions_none
    ∧ everyone allowed = false ∧ users allowed = false
    ∧ roles allowed = false ∧ replied_user allowed = false.
Proof.
  intros Hn Hlen. eexists _, _. split.
  - by rewrite handling_short_text_run.
  - done.
Qed.

End ShortText.

Lemma short_text_suppresses_mentions_witness :
  ∃ content allowed,
    jsk_python_result_handling sample_client (λ _ _, true)
      (feature_with (Some (lit "s3cr3t"))) sample_ctx
      (str_object (lit "@everyone hello")) [] =
      (inr (sample_client [] (ctx_send (Some content) None None (Some allowed))),
       [] ++ [ctx_send (Some content) None None (Some allowed)])
    ∧ allowed = AllowedMentions_none
    ∧ everyone allowed = false ∧ users allowed = false
    ∧ roles allowed = false ∧ replied_user allowed = false.
Proof.
  apply (short_text_suppresses_mentions sample_client (λ _ _, true)).
  - reflexivity.
  - vm_compute. lia.
Defined.

(** ** Redaction and the empty-message guard *)

Section Redaction.

Variable client : list call → call → object.
Variable use_file_check : Context → nat → bool.

#[local] Abbreviation handling :=
  (jsk_python_result_handling client use_file_check).

Lemma short_text_content_blank token t :
  blank t →
  short_text_content token t =
  match token with
  | Some tok => if decide (tok = placeholder) then marker else placeholder
  | None => placeholder
  end.
Proof.
  intros Hb%strip_empty. unfold short_text_content. rewrite Hb.
  destruct token as [tok|]; [|done].
  destruct tok as [|p [|q tok]]; [done| |].
  - unfold truthy, placeholder. cbn [is_empty_str negb replace replace_scan startswith].
    destruct (N.eqb_spec 0x200b p) as [<-|Hne].
    + by rewrite decide_True.
    + rewrite decide_False by congruence. done.
  - unfold truthy, placeholder. cbn [is_empty_str negb replace replace_scan startswith].
    rewrite andb_false_r. by rewrite decide_False.
Qed.

Lemma short_text_content_redacts tok t :
  tok ≠ [] →
  short_text_content (Some tok) t =
  replace (if is_empty_str (strip t) then placeholder else t) tok marker.
Proof. unfold short_text_content, truthy. by destruct tok. Qed.

Lemma marker_clean tok s :
  tok ≠ [] → open_bracket ∉ tok → close_bracket ∉ tok → ¬ occurs tok marker →
  ¬ occurs tok (replace s tok marker).
Proof.
  intros Htok Ho Hc Hm. rewrite replace_nonempty by done.
  by apply (replace_scan_clean _ _ open_bracket close_bracket).
Qed.

(** C2 (amended).  For every text of at most 2000 characters and every
    credential that is non-empty, holds neither bracket of the marker and
    does not occur inside the marker, the content passed to the send is
    the text (the placeholder, for a blank text) with each occurrence of
    the credential, taken from the left without overlap, replaced by
    "[token omitted]", and the credential occurs nowhere in it. *)
Theorem short_text_redaction self ctx result token log :
  http_token (self_bot self) = Some token →
  token ≠ [] → open_bracket ∉ token → close_bracket ∉ token →
  ¬ occurs token marker →
  chat_native result = false → (len (text_of result) ≤ 2000)%nat →
  ∃ content,
    handling self ctx result log =
      (inr (client log (short_text_call content)), log ++ [short_text_call content])
    ∧ (¬ blank (text_of result) → redacted token marker (text_of result) content)
    ∧ (blank (text_of result) → redacted token marker placeholder content)
    ∧ ¬ occurs token content.
Proof.
  intros Htoken Hne Ho Hc Hm Hnative Hlen.
  exists (short_text_content (Some token) (text_of result)).
  split; [by rewrite handling_short_text_run, Htoken|].
  rewrite short_text_content_redacts by done.
  split; [|split].
  - intros Hb%strip_not_empty. rewrite Hb. by apply replace_redacted.
  - intros Hb%strip_empty. rewrite Hb. by apply replace_redacted.
  - by apply marker_clean.
Qed.

(** C4 (amended).  For every blank text of at most 2000 characters the
    content passed to the send is never empty: it is the zero-width
    placeholder, except when the credential is that very character, in
    which case the redaction that follows the guard turns it into the
    marker. *)
Theorem blank_text_placeholder self ctx result log :
  chat_native result = false → (len (text_of result) ≤ 2000)%nat →
  blank (text_of result) →
  ∃ content,
    handling self ctx result log =
      (inr (client log (short_text_call content)), log ++ [short_text_call content])
    ∧ content ≠ []
    ∧ (http_token (self_bot self) ≠ Some placeholder → content = placeholder)
    ∧ (http_token (self_bot self) = Some placeholder → content = marker).
Proof.
  intros Hnative Hlen Hb.
  exists (short_text_content (http_token (self_bot self)) (text_of result)).
  split; [by rewrite handling_short_text_run|].
  rewrite short_text_content_blank by done.
  destruct (http_token (self_bot self)) as [tok|]; [|done].
  destruct (decide (tok = placeholder)) as [->|Hne].
  - done.
  - split; [done|]. split; [done|]. congruence.
Qed.

End Redaction.

Lemma short_text_redaction_witness :
  ∃ content,
    jsk_python_result_handling sample_client (λ _ _, true)
      (feature_with (Some (lit "s3cr3t"))) sample_ctx
      (str_object (lit "my s3cr3t is s3cr3t")) [] =
      (inr (sample_client [] (short_text_call content)), [] ++ [short_text_call content])
    ∧ (¬ blank (lit "my s3cr3t is s3cr3t") →
       redacted (lit "s3cr3t") marker (lit "my s3cr3t is s3cr3t") content)
    ∧ (blank (lit "my s3cr3t is s3cr3t") →
       redacted (lit "s3cr3t") marker placeholder content)
    ∧ ¬ occurs (lit "s3cr3t") content.
Proof.
  apply (short_text_redaction sample_client (λ _ _, true)
           (feature_with (Some (lit "s3cr3t"))) sample_ctx
           (str_object (lit "my s3cr3t is s3cr3t")) (lit "s3cr3t") []).
  - reflexivity.
  - discriminate.
  - apply (bool_decide_unpack _). vm_compute. exact I.
  - apply (bool_decide_unpack _). vm_compute. exact I.
  - apply contains_false. reflexivity.
  - reflexivity.
  - vm_compute. lia.
Defined.

Lemma blank_text_placeholder_witness :
  ∃ content,
    jsk_python_result_handling sample_client (λ _ _, true)
      (feature_with (Some (lit "s3cr3t"))) sample_ctx
      (str_object (lit "   ")) [] =
      (inr (sample_client [] (short_text_call content)), [] ++ [short_text_call content])
    ∧ content ≠ []
    ∧ (Some (lit "s3cr3t") ≠ Some placeholder → content = placeholder)
    ∧ (Some (lit "s3cr3t") = Some placeholder → content = marker).
Proof.
  apply (blank_text_placeholder sample_client (λ _ _, true)
           (feature_with (Some (lit "s3cr3t"))) sample_ctx
           (str_object (lit "   ")) []).
  - reflexivity.
  - vm_compute. lia.
  - apply strip_empty. reflexivity.
Defined.

(** C2 (as stated, refuted).  With the credential "token" the text
    "my token" is short and contains the credential, and the content that
    is sent, "my [token omitted]", contains the credential again: the
    marker itself spells it. *)
Lemma redaction_leaves_credential :
  occurs (lit "token") (lit "my token")
  ∧ (len (lit "my token") ≤ 2000)%nat
  ∧ jsk_python_result_handling sample_client (λ _ _, true)
      (feature_with (Some (lit "token"))) (context_with (Some (lit "token")))
      (str_object (lit "my token")) [] =
    (inr (sample_client [] (short_text_call (lit "my [token omitted]"))),
     [short_text_call (lit "my [token omitted]")])
  ∧ occurs (lit "token") (lit "my [token omitted]").
Proof.
  split; [apply contains_occurs; reflexivity|].
  split; [vm_compute; lia|].
  split; [reflexivity|].
  apply contains_occurs; reflexivity.
Qed.

(** C4 (as stated, refuted).  When the credential is the zero-width
    space, the empty text is sent as "[token omitted]" and not as the
    placeholder: the redaction runs after the guard and rewrites it. *)
Lemma blank_text_redacted_to_marker :
  blank []
  ∧ (len [] ≤ 2000)%nat
  ∧ jsk_python_result_handling sample_client (λ _ _, true)
      (feature_with (Some placeholder)) (context_with (Some placeholder))
      (str_object []) [] =
    (inr (sample_client [] (short_text_call marker)), [short_text_call marker])
  ∧ marker ≠ placeholder.
Proof.
  split; [constructor|]. split; [simpl; lia|]. split; [reflexivity|discriminate].
Qed.

(** ** Messages *)

(** C9 (amended).  When the produced value is a message, the dispatcher
    does not hand the message itself to the client: it sends, as plain
    content with no file, embed or mention allowance, the text
    "<Message <URL>>" built from the jump URL of the message, and returns
    what the client returned for that send. *)
Theorem message_link_sent client use_file_check self ctx result log :
  is_Message result = true →
  ∃ c,
    c = ctx_send (Some (lit "<Message <" ++ jump_url result ++ lit ">>")) None None None
    ∧ jsk_python_result_handling client use_file_check self ctx result log =
      (inr (client log c), log ++ [c])
    ∧ ¬ forwards result c.
Proof.
  intros HM. eexists. split; [reflexivity|]. split.
  - by rewrite handling_message.
  - simpl. by intros [|].
Qed.

Lemma message_link_sent_witness :
  ∃ c,
    c = ctx_send
          (Some (lit "<Message <"
                 ++ jump_url (message_object (lit "https://discord.com/channels/1/2/3"))
                 ++ lit ">>")) None None None
    ∧ jsk_python_result_handling sample_client (λ _ _, true)
        (feature_with None) sample_ctx
        (message_object (lit "https://discord.com/channels/1/2/3")) [] =
      (inr (sample_client [] c), [] ++ [c])
    ∧ ¬ forwards (message_object (lit "https://discord.com/channels/1/2/3")) c.
Proof.
  apply (message_link_sent sample_client (λ _ _, true) (feature_with None)
           sample_ctx (message_object (lit "https://discord.com/channels/1/2/3")) []).
  reflexivity.
Defined.

(** C9 (as stated, refuted).  For a message the one delivery is the text
    "<Message <https://discord.com/channels/1/2/3>>": the message object
    is not among the arguments of the send. *)
Lemma message_not_forwarded :
  ∃ c,
    jsk_python_result_handling sample_client (λ _ _, true)
      (feature_with None) sample_ctx
      (message_object (lit "https://discord.com/channels/1/2/3")) [] =
    (inr (sample_client [] c), [c])
    ∧ c = ctx_send (Some (lit "<Message <https://discord.com/channels/1/2/3>>"))
            None None None
    ∧ ¬ forwards (message_object (lit "https://discord.com/channels/1/2/3")) c.
Proof.
  eexists. split; [reflexivity|]. split; [reflexivity|].
  simpl. by intros [|].
Qed.

(** The sibling branches do forward the produced value. *)
Lemma file_forwarded client use_file_check self ctx result log :
  is_Message result = false → is_File result = true →
  ∃ c, jsk_python_result_handling client use_file_check self ctx result log =
       (inr (client log c), log ++ [c]) ∧ forwards result c.
Proof.
  intros HM HF. eexists. split; [by rewrite handling_file|]. simpl. by left.
Qed.

(** ** The length test comes before the redaction *)

Lemma replace_scan_replicate a new n :
  len (replace_scan [a] new 0 (replicate n a)) = (n * len new)%nat.
Proof.
  induction n as [|n IH]; [done|].
  rewrite (replace_scan_hit [a] new (replicate (S n) a) (replicate n a)) by done.
  unfold len in *. rewrite length_app, IH. simpl. lia.
Qed.

Lemma replicate_not_blank n c : isspace c = false → ¬ blank (replicate (S n) c).
Proof. intros Hc Hb. inversion Hb. congruence. Qed.

(** C10.  The test against the 2000-character cap is made on the text
    before redaction.  There is a text of at most 2000 characters that
    contains the credential and whose delivered content, each occurrence
    having become the 15-character marker, is longer than 2000
    characters: the short-text branch does not keep the sent content
    within the cap. *)
Theorem short_text_content_may_exceed_cap :
  ∃ token text : str,
    (len text ≤ 2000)%nat ∧ occurs token text ∧ len marker = 15%nat
    ∧ ∀ client use_file_check log, ∃ content,
        jsk_python_result_handling client use_file_check
          (feature_with (Some token)) (context_with (Some token))
          (str_object text) log =
        (inr (client log (short_text_call content)), log ++ [short_text_call content])
        ∧ content = replace text token marker
        ∧ (2000 < len content)%nat.
Proof.
  exists [0x61], (replicate 2000 0x61).
  assert (len (replicate 2000 0x61) = 2000%nat) as Hlen
    by apply length_replicate.
  split; [by rewrite Hlen|].
  split; [by exists [], (replicate 1999 0x61)|].
  split; [reflexivity|].
  intros client use_file_check log. eexists. split; [|split; [reflexivity|]].
  - rewrite handling_short_text_run by (done || (cbn [text_of str_object is_str chars]; lia)).
    cbv zeta. cbn [feature_with self_bot bot_with http_token text_of str_object is_str chars].
    rewrite short_text_content_redacts by done.
    assert (is_empty_str (strip (replicate 2000 0x61)) = false) as ->.
    { apply strip_not_empty. by apply (replicate_not_blank 1999). }
    done.
  - rewrite replace_nonempty by done. rewrite replace_scan_replicate.
    change (len marker) with 15%nat. lia.
Qed.

(** ** Long text *)

Section LongText.

Variable client : list call → call → object.
Variable use_file_check : Context → nat → bool.

#[local] Abbreviation handling :=
  (jsk_python_result_handling client use_file_check).

Lemma handling_inline_file_run self ctx result log content :
  chat_native result = false → (2000 < len (text_of result))%nat →
  use_file_check ctx (len (text_of result)) = true →
  encode_utf8 (text_of result) = Some content →
  handling self ctx result log =
  let c := ctx_send None
             (Some (built_file {| filename := lit "output.py"; fp := content |}))
             None None in
  (inr (client log c), log ++ [c]).
Proof.
  intros Hn Hlen Hfile Henc. rewrite handling_inline_file by done.
  unfold mbind, IO_bind, or_raise. by rewrite Henc.
Qed.

Lemma handling_inline_file_raises self ctx result log :
  chat_native result = false → (2000 < len (text_of result))%nat →
  use_file_check ctx (len (text_of result)) = true →
  encode_utf8 (text_of result) = None →
  handling self ctx result log = (inl UnicodeEncodeError, log).
Proof.
  intros Hn Hlen Hfile Henc. rewrite handling_inline_file by done.
  unfold mbind, IO_bind, or_raise. by rewrite Henc.
Qed.

(** C5 (amended).  For every text result without surrogate code points
    whose length exceeds 2000 and passes the inline-preview check, the
    dispatch is one send of a file attachment named "output.py" whose
    binary content is the UTF-8 encoding of the exact text, so that
    decoding it gives the text back; nothing is paginated. *)
Theorem long_text_inline_file self ctx result log :
  chat_native result = false → (2000 < len (text_of result))%nat →
  use_file_check ctx (len (text_of result)) = true →
  encodable (text_of result) →
  ∃ content,
    encode_utf8 (text_of result) = Some content
    ∧ decode_utf8 content = Some (text_of result)
    ∧ handling self ctx result log =
      (inr (client log
              (ctx_send None
                 (Some (built_file {| filename := lit "output.py"; fp := content |}))
                 None None)),
       log ++ [ctx_send None
                 (Some (built_file {| filename := lit "output.py"; fp := content |}))
                 None None]).
Proof.
  intros Hn Hlen Hfile [content Henc]%utf8_encodable.
  exists content. split; [done|]. split; [by apply utf8_roundtrip|].
  by rewrite (handling_inline_file_run _ _ _ _ content).
Qed.

(** C6 (amended).  For every text result longer than 2000 characters
    that fails the inline-preview check, the dispatch is one [send_to] of
    a paginated view built for the client of the context and owned by the
    invoking caller, with a page-size budget of 1980, the opening fence
    "```py" of 5 characters and the closing fence "```" of 3 characters;
    each page, both fences included, has at most 1980 characters, and the
    pages without their fences concatenate to the text. *)
Theorem long_text_paginated self ctx result log :
  chat_native result = false → (2000 < len (text_of result))%nat →
  use_file_check ctx (len (text_of result)) = false →
  ∃ p,
    handling self ctx result log =
      (inr (client log
              (send_to (built_interface
                          {| interface_bot := bot ctx; paginator := p;
                             owner := author ctx |}) ctx)),
       log ++ [send_to (built_interface
                          {| interface_bot := bot ctx; paginator := p;
                             owner := author ctx |}) ctx])
    ∧ max_size p = 1980%nat
    ∧ prefix p = lit "```py" ∧ len (prefix p) = 5%nat
    ∧ suffix p = lit "```" ∧ len (suffix p) = 3%nat
    ∧ Forall (λ page, (len page ≤ 1980)%nat) (pages p)
    ∧ pages p = (λ piece, lit "```py" ++ piece ++ lit "```") <$> pieces p
    ∧ concat (pieces p) = text_of result.
Proof.
  intros Hn Hlen Hfile. eexists. split.
  { rewrite handling_paginated by done. reflexivity. }
  cbn [max_size prefix suffix pieces].
  repeat (split; [reflexivity|]).
  split; [|split; [reflexivity|]].
  - apply (pages_bound
             {| prefix := lit "```py"; suffix := lit "```"; max_size := 1980;
                pieces := cut (len (text_of result)) 1972 (text_of result) |}).
    + apply cut_bound.
    + cbn [max_size prefix suffix]. change (len (lit "```py")) with 5%nat.
      change (len (lit "```")) with 3%nat. lia.
  - apply cut_concat; [lia | done].
Qed.

End LongText.

Lemma long_text_inline_file_witness :
  ∃ content,
    encode_utf8 (text_of (str_object (replicate 2001 0x1F600))) = Some content
    ∧ decode_utf8 content = Some (text_of (str_object (replicate 2001 0x1F600)))
    ∧ jsk_python_result_handling sample_client (λ _ _, true)
        (feature_with None) sample_ctx (str_object (replicate 2001 0x1F600)) [] =
      (inr (sample_client []
              (ctx_send None
                 (Some (built_file {| filename := lit "output.py"; fp := content |}))
                 None None)),
       [] ++ [ctx_send None
                (Some (built_file {| filename := lit "output.py"; fp := content |}))
                None None]).
Proof.
  apply (long_text_inline_file sample_client (λ _ _, true) (feature_with None)
           sample_ctx (str_object (replicate 2001 0x1F600)) []).
  - reflexivity.
  - vm_compute. lia.
  - reflexivity.
  - apply Forall_replicate. split; reflexivity.
Defined.

(** C5 (as stated, refuted).  A text of 2001 lone surrogates is longer
    than 2000 characters and passes the check, yet no file is sent: the
    encoding raises and the dispatch makes no delivery. *)
Lemma surrogate_text_not_delivered :
  (2000 < len (text_of (str_object (replicate 2001 0xD800%N))))%nat
  ∧ jsk_python_result_handling sample_client (λ _ _, true)
      (feature_with None) sample_ctx (str_object (replicate 2001 0xD800)) [] =
    (inl UnicodeEncodeError, []).
Proof.
  assert (2000 < len (text_of (str_object (replicate 2001 0xD800%N))))%nat as Hlen
    by (vm_compute; lia).
  split; [done|].
  apply handling_inline_file_raises; [reflexivity | exact Hlen | reflexivity |].
  apply (utf8_surrogate _ 0xD800); [by left | reflexivity].
Qed.

Lemma long_text_paginated_witness :
  ∃ p,
    jsk_python_result_handling sample_client (λ _ _, false)
      (feature_with None) sample_ctx (str_object (replicate 2001 0x61)) [] =
      (inr (sample_client []
              (send_to (built_interface
                          {| interface_bot := bot sample_ctx; paginator := p;
                             owner := author sample_ctx |}) sample_ctx)),
       [] ++ [send_to (built_interface
                         {| interface_bot := bot sample_ctx; paginator := p;
                            owner := author sample_ctx |}) sample_ctx])
    ∧ max_size p = 1980%nat
    ∧ prefix p = lit "```py" ∧ len (prefix p) = 5%nat
    ∧ suffix p = lit "```" ∧ len (suffix p) = 3%nat
    ∧ Forall (λ page, (len page ≤ 1980)%nat) (pages p)
    ∧ pages p = (λ piece, lit "```py" ++ piece ++ lit "```") <$> pieces p
    ∧ concat (pieces p) = text_of (str_object (replicate 2001 0x61)).
Proof.
  apply (long_text_paginated sample_client (λ _ _, false) (feature_with None)
           sample_ctx (str_object (replicate 2001 0x61)) []).
  - reflexivity.
  - vm_compute. lia.
  - reflexivity.
Defined.

(** C6 (as stated, refuted).  The paginator built for a long text has
    the opening fence "```py", which has 5 characters and not 7. *)
Lemma paginator_prefix_not_seven :
  ∃ p,
    jsk_python_result_handling sample_client (λ _ _, false)
      (feature_with None) sample_ctx (str_object (replicate 2001 0x61)) [] =
    (inr (sample_client []
            (send_to (built_interface
                        {| interface_bot := bot sample_ctx; paginator := p;
                           owner := author sample_ctx |}) sample_ctx)),
     [send_to (built_interface
                 {| interface_bot := bot sample_ctx; paginator := p;
                    owner := author sample_ctx |}) sample_ctx])
    ∧ prefix p = lit "```py"
    ∧ len (prefix p) = 5%nat
    ∧ len (prefix p) ≠ 7%nat.
Proof.
  eexists. split.
  { rewrite handling_paginated; [reflexivity|reflexivity|vm_compute; lia|reflexivity]. }
  cbn [prefix]. split; [reflexivity|]. split; [reflexivity|]. vm_compute. lia.
Qed.

(** * The scope provider *)

(** The scope stored at initialization is a new, empty scope, and the
    retention state is the flag read then. *)
Lemma init_scope b Flags_RETAIN h :
  retain (PythonFeature_init b Flags_RETAIN h).1 = Flags_RETAIN
  ∧ last_result (PythonFeature_init b Flags_RETAIN h).1 = PyNone
  ∧ h !! _scope (PythonFeature_init b Flags_RETAIN h).1 = None
  ∧ (PythonFeature_init b Flags_RETAIN h).2
      !! _scope (PythonFeature_init b Flags_RETAIN h).1 = Some Scope_empty.
Proof.
  unfold PythonFeature_init, Scope_new. cbn [fst snd _scope retain last_result].
  split; [done|]. split; [done|]. split.
  - apply not_elem_of_dom, is_fresh.
  - apply lookup_insert_eq.
Qed.

(** C8.  The scope accessor has two states.  With retention on, every
    access returns the one stored scope object and leaves the store as it
    is.  With retention off, every access returns a scope object that was
    not in the store before and is empty, so whatever was written to the
    scope of an earlier access, a later access returns another object,
    still empty, and leaves the earlier one as it was. *)
Theorem scope_two_states self :
  (retain self = true → ∀ h, scope self h = (_scope self, h))
  ∧ (retain self = false →
     ∀ h, ∃ r, scope self h = (r, <[r := Scope_empty]> h) ∧ h !! r = None)
  ∧ (retain self = false →
     ∀ h r1 h1, scope self h = (r1, h1) →
     ∀ written : Scope, ∃ r2,
       scope self (<[r1 := written]> h1)
         = (r2, <[r2 := Scope_empty]> (<[r1 := written]> h1))
       ∧ r2 ≠ r1
       ∧ <[r2 := Scope_empty]> (<[r1 := written]> h1) !! r2 = Some Scope_empty
       ∧ <[r2 := Scope_empty]> (<[r1 := written]> h1) !! r1 = Some written).
Proof.
  unfold scope, Scope_new. split; [|split].
  - by intros ->.
  - intros -> h. eexists. split; [done|].
    apply not_elem_of_dom, is_fresh.
  - intros -> h r1 h1 _ written. eexists. split; [done|].
    set (h2 := <[r1 := written]> h1).
    assert (fresh (dom h2) ≠ r1) as Hne.
    { intros E. apply (is_fresh (dom h2)). rewrite E.
      apply elem_of_dom. unfold h2. rewrite lookup_insert_eq. by eexists. }
    split; [done|]. split; [apply lookup_insert_eq|].
    rewrite lookup_insert_ne by done. apply lookup_insert_eq.
Qed.

(** * The argument binder *)

Section LiteralFacts.

Lemma lit_inj s1 s2 : lit s1 = lit s2 → s1 = s2.
Proof.
  unfold lit. intros H.
  assert (Inj (=) (=) N_of_ascii) as Hinj.
  { intros a b Hab. by rewrite <- (ascii_N_embedding a), Hab, ascii_N_embedding. }
  apply (inj (fmap N_of_ascii)) in H.
  by rewrite <- (string_of_list_ascii_of_string s1), H,
    string_of_list_ascii_of_string.
Qed.

Lemma mention_name_inj kind i j :
  mention_name kind i = mention_name kind j → i = j.
Proof.
  unfold mention_name. intros H.
  do 3 apply app_inv_head in H.
  apply lit_inj in H. by apply pretty_nat_inj in H.
Qed.

Lemma mention_name_third kind i :
  mention_name kind i !! 2%nat = head (lit kind ++ lit "_mention_").
Proof.
  unfold mention_name. change (lit "__") with [0x5F; 0x5F].
  change (lit "_mention_") with (0x5F :: lit "mention_").
  cbn [app lookup list_lookup]. by destruct (lit kind).
Qed.

Lemma mention_name_kinds k1 k2 i j :
  head (lit k1 ++ lit "_mention_") ≠ head (lit k2 ++ lit "_mention_") →
  mention_name k1 i ≠ mention_name k2 j.
Proof.
  intros Hne E. apply Hne.
  by rewrite <- (mention_name_third k1 i), <- (mention_name_third k2 j), E.
Qed.

End LiteralFacts.

Section BindFacts.

Context {A : Type} `{Mentionable A}.
Variables (kind : string) (inj : A → value).

Implicit Types (xs : list A) (d : gmap str value * gmap str str).

Lemma bind_mentions_args_other xs i d k :
  (∀ j, (j < length xs)%nat → k ≠ mention_name kind (i + j)) →
  (bind_mentions kind inj i xs d).1 !! k = d.1 !! k.
Proof.
  revert i d; induction xs as [|x xs IH]; intros i d Hk; [done|].
  cbn [bind_mentions]. rewrite IH.
  - cbn [fst]. rewrite lookup_insert_ne; [done|].
    intros E. apply (Hk 0%nat); [simpl; lia|]. by rewrite Nat.add_0_r.
  - intros j Hj. replace (S i + j)%nat with (i + S j)%nat by lia.
    apply Hk. simpl; lia.
Qed.

Lemma bind_mentions_args xs i d j x :
  xs !! j = Some x →
  (bind_mentions kind inj i xs d).1 !! mention_name kind (i + j) = Some (inj x).
Proof.
  revert i d j; induction xs as [|x0 xs IH]; intros i d j Hj; [done|].
  cbn [bind_mentions]. destruct j as [|j].
  - injection Hj as ->. rewrite bind_mentions_args_other.
    + cbn [fst]. rewrite Nat.add_0_r. apply lookup_insert_eq.
    + intros j _ E%mention_name_inj. lia.
  - replace (i + S j)%nat with (S i + j)%nat by lia. by apply IH.
Qed.

Lemma bind_mentions_conv_other xs i d t :
  t ∉ mention <$> xs →
  (bind_mentions kind inj i xs d).2 !! t = d.2 !! t.
Proof.
  revert i d; induction xs as [|x xs IH]; intros i d Ht; [done|].
  cbn [bind_mentions]. rewrite fmap_cons in Ht.
  apply not_elem_of_cons in Ht as [Hx Hxs].
  rewrite IH by done. cbn [snd]. by rewrite lookup_insert_ne.
Qed.

Lemma bind_mentions_conv xs i d j x :
  NoDup (mention <$> xs) → xs !! j = Some x →
  (bind_mentions kind inj i xs d).2 !! mention x = Some (mention_name kind (i + j)).
Proof.
  revert i d j; induction xs as [|x0 xs IH]; intros i d j Hnd Hj; [done|].
  cbn [bind_mentions]. rewrite fmap_cons in Hnd.
  apply NoDup_cons in Hnd as [Hx0 Hnd]. destruct j as [|j].
  - injection Hj as ->. rewrite bind_mentions_conv_other by done.
    cbn [snd]. rewrite Nat.add_0_r. apply lookup_insert_eq.
  - replace (i + S j)%nat with (S i + j)%nat by lia. by apply IH.
Qed.

Lemma bind_mentions_conv_size xs i d :
  NoDup (mention <$> xs) →
  (∀ t, t ∈ mention <$> xs → d.2 !! t = None) →
  size (bind_mentions kind inj i xs d).2 = (size d.2 + length xs)%nat.
Proof.
  revert i d; induction xs as [|x xs IH]; intros i d Hnd Hd;
    [simpl; lia|].
  cbn [bind_mentions]. rewrite fmap_cons in Hnd, Hd.
  apply NoDup_cons in Hnd as [Hx Hnd].
  rewrite IH; [|done|].
  - cbn [snd]. rewrite map_size_insert_None; [simpl; lia|].
    apply Hd. by left.
  - intros t Ht. cbn [snd]. rewrite lookup_insert_ne.
    + apply Hd. by right.
    + intros <-. done.
Qed.

Lemma bind_mentions_conv_inv xs i d t v :
  (bind_mentions kind inj i xs d).2 !! t = Some v →
  d.2 !! t = Some v
  ∨ ∃ j, (j < length xs)%nat ∧ v = mention_name kind (i + j).
Proof.
  revert i d; induction xs as [|x xs IH]; intros i d Hv; [by left|].
  cbn [bind_mentions] in Hv. apply IH in Hv as [Hv|(j & Hj & ->)].
  - cbn [snd] in Hv. apply lookup_insert_Some in Hv as [[_ <-]|[_ Hv]].
    + right. exists 0%nat. split; [simpl; lia | by rewrite Nat.add_0_r].
    + by left.
  - right. exists (S j). split; [simpl; lia|]. f_equal. lia.
Qed.

End BindFacts.

Section ConvertableFacts.

Variable get_var_dict_from_ctx : Context → str → gmap str value.
Variable Flags_SCOPE_PREFIX : str.

#[local] Abbreviation get_convertables :=
  (jsk_python_get_convertables get_var_dict_from_ctx Flags_SCOPE_PREFIX).

Lemma elem_of_mention_names kind n v :
  v ∈ mention_names kind n ↔ ∃ j, (j < n)%nat ∧ v = mention_name kind j.
Proof.
  unfold mention_names. rewrite list_elem_of_fmap. split.
  - intros (j & -> & Hj%elem_of_seq). exists j. split; [lia | done].
  - intros (j & Hj & ->). exists j. split; [done|]. apply elem_of_seq. lia.
Qed.

Lemma NoDup_mention_names kind n : NoDup (mention_names kind n).
Proof.
  unfold mention_names. apply NoDup_fmap_2; [|apply NoDup_seq].
  intros i j. apply mention_name_inj.
Qed.

Lemma NoDup_all_mention_names n m k :
  NoDup (mention_names "user" n ++ mention_names "channel" m
         ++ mention_names "role" k).
Proof.
  apply NoDup_app. split; [apply NoDup_mention_names|]. split.
  - intros v (i & _ & ->)%elem_of_mention_names
      [(j & _ & E)%elem_of_mention_names|(j & _ & E)%elem_of_mention_names]%elem_of_app;
      by apply mention_name_kinds in E.
  - apply NoDup_app. split; [apply NoDup_mention_names|].
    split; [|apply NoDup_mention_names].
    intros v (i & _ & ->)%elem_of_mention_names (j & _ & E)%elem_of_mention_names.
    by apply mention_name_kinds in E.
Qed.

(** C7.  For an invocation that carries a raw message mentioning N
    accounts, M channels and K roles (with pairwise distinct mention
    literals), the binder produces exactly N+M+K convertable entries; the
    identifiers __user_mention_0..N-1, __channel_mention_0..M-1 and
    __role_mention_0..K-1 are pairwise distinct, each kind counted from 0
    in arrival order; each mention literal is mapped to its identifier
    and each identifier is bound to its entity in the bindings; every
    entry's identifier is one of these.  An invocation that arrives
    through an interaction has an empty convertable map whatever its
    message mentions. *)
Theorem convertables_of_mentions self ctx :
  (is_Some (interaction ctx) → (get_convertables self ctx).2 = ∅)
  ∧ (interaction ctx = None → NoDup (mention_texts (message ctx)) →
     size (get_convertables self ctx).2
       = (length (mentions (message ctx))
          + length (channel_mentions (message ctx))
          + length (role_mentions (message ctx)))%nat
     ∧ NoDup (mention_names "user" (length (mentions (message ctx)))
              ++ mention_names "channel" (length (channel_mentions (message ctx)))
              ++ mention_names "role" (length (role_mentions (message ctx))))
     ∧ (∀ i u, mentions (message ctx) !! i = Some u →
          (get_convertables self ctx).2 !! mention u = Some (mention_name "user" i)
          ∧ (get_convertables self ctx).1 !! mention_name "user" i = Some (PyUser u))
     ∧ (∀ i c, channel_mentions (message ctx) !! i = Some c →
          (get_convertables self ctx).2 !! mention c = Some (mention_name "channel" i)
          ∧ (get_convertables self ctx).1 !! mention_name "channel" i = Some (PyChannel c))
     ∧ (∀ i r, role_mentions (message ctx) !! i = Some r →
          (get_convertables self ctx).2 !! mention r = Some (mention_name "role" i)
          ∧ (get_convertables self ctx).1 !! mention_name "role" i = Some (PyRole r))
     ∧ (∀ t v, (get_convertables self ctx).2 !! t = Some v →
          v ∈ mention_names "user" (length (mentions (message ctx)))
              ++ mention_names "channel" (length (channel_mentions (message ctx)))
              ++ mention_names "role" (length (role_mentions (message ctx))))).
Proof.
  unfold jsk_python_get_convertables. split.
  { by intros [i ->]. }
  intros -> Hnd. cbv zeta. unfold mention_texts in Hnd.
  set (us := mentions (message ctx)) in *.
  set (cs := channel_mentions (message ctx)) in *.
  set (rs := role_mentions (message ctx)) in *.
  set (d0 := (<[lit "_" := last_result self]>
                (get_var_dict_from_ctx ctx Flags_SCOPE_PREFIX),
              (∅ : gmap str str))).
  set (d1 := bind_mentions "user" PyUser 0 us d0).
  set (d2 := bind_mentions "channel" PyChannel 0 cs d1).
  apply NoDup_app in Hnd as (Hus & Hucr & Hnd).
  apply NoDup_app in Hnd as (Hcs & Hcr & Hrs).
  assert (∀ t, t ∈ mention <$> cs → t ∉ mention <$> us) as Hcu.
  { intros t Ht Hu. apply (Hucr t Hu), elem_of_app. by left. }
  assert (∀ t, t ∈ mention <$> rs → t ∉ mention <$> us) as Hru.
  { intros t Ht Hu. apply (Hucr t Hu), elem_of_app. by right. }
  assert (∀ t, t ∈ mention <$> rs → t ∉ mention <$> cs) as Hrc.
  { intros t Ht Hc. by apply (Hcr t Hc). }
  assert (∀ (B : Type) (f : B → str) (l : list B) j x,
            l !! j = Some x → f x ∈ f <$> l) as Hin.
  { intros B f l j x Hj. apply list_elem_of_fmap. exists x. split; [done|].
    by eapply list_elem_of_lookup_2. }
  split; [|split; [apply NoDup_all_mention_names|]].
  { rewrite bind_mentions_conv_size; [|done|].
    - unfold d2. rewrite bind_mentions_conv_size; [|done|].
      + unfold d1. rewrite bind_mentions_conv_size; [|done|done].
        unfold d0. cbn [snd]. rewrite map_size_empty. lia.
      + intros t Ht. unfold d1.
        rewrite bind_mentions_conv_other by (by apply Hcu). done.
    - intros t Ht. unfold d2.
      rewrite bind_mentions_conv_other by (by apply Hrc).
      unfold d1. rewrite bind_mentions_conv_other by (by apply Hru). done. }
  split; [|split; [|split]].
  - intros i u Hi. split.
    + rewrite bind_mentions_conv_other by (intros Hr; eapply Hru; eauto).
      unfold d2.
      rewrite bind_mentions_conv_other by (intros Hc; eapply Hcu; eauto).
      by apply (bind_mentions_conv "user" PyUser us 0).
    + rewrite bind_mentions_args_other
        by (intros j _; by apply mention_name_kinds).
      unfold d2. rewrite bind_mentions_args_other
        by (intros j _; by apply mention_name_kinds).
      by apply (bind_mentions_args "user" PyUser us 0).
  - intros i c Hi. split.
    + rewrite bind_mentions_conv_other by (intros Hr; eapply Hrc; eauto).
      by apply (bind_mentions_conv "channel" PyChannel cs 0).
    + rewrite bind_mentions_args_other
        by (intros j _; by apply mention_name_kinds).
      by apply (bind_mentions_args "channel" PyChannel cs 0).
  - intros i r Hi. split.
    + by apply (bind_mentions_conv "role" PyRole rs 0).
    + by apply (bind_mentions_args "role" PyRole rs 0).
  - intros t v Hv. rewrite !elem_of_app, !elem_of_mention_names.
    apply bind_mentions_conv_inv in Hv as [Hv|Hv]; [|by right; right].
    apply bind_mentions_conv_inv in Hv as [Hv|Hv]; [|by right; left].
    apply bind_mentions_conv_inv in Hv as [Hv|Hv]; [|by left].
    done.
Qed.

End ConvertableFacts.

Lemma convertables_of_mentions_witness :
  size (jsk_python_get_convertables (λ _ _, ∅) (lit "_")
          (feature_with None) sample_ctx).2 = 4%nat
  ∧ (jsk_python_get_convertables (λ _ _, ∅) (lit "_")
       (feature_with None) sample_ctx).2 !! lit "<@12>"
    = Some (lit "__user_mention_1")
  ∧ (jsk_python_get_convertables (λ _ _, ∅) (lit "_")
       (feature_with None) sample_ctx).1 !! lit "__user_mention_1"
    = Some (PyUser bob)
  ∧ (jsk_python_get_convertables (λ _ _, ∅) (lit "_")
       (feature_with None) sample_interaction_ctx).2 = ∅.
Proof.
  assert (NoDup (mention_texts (message sample_ctx))) as Hnd.
  { apply (bool_decide_unpack _). vm_compute. exact I. }
  destruct (convertables_of_mentions (λ _ _, ∅) (lit "_") (feature_with None)
              sample_ctx) as [_ Hmsg].
  destruct (Hmsg eq_refl Hnd) as (Hsize & _ & Husers & _).
  destruct (Husers 1%nat bob eq_refl) as [Hconv Hargs].
  destruct (convertables_of_mentions (λ _ _, ∅) (lit "_") (feature_with None)
              sample_interaction_ctx) as [Hint _].
  split; [exact Hsize|]. split; [exact Hconv|]. split; [exact Hargs|].
  apply Hint. simpl. by eexists.
Defined.

(** * Scenarios *)

Example hello_dispatched :
  jsk_python_result_handling sample_client (λ _ _, true)
    (feature_with (Some (lit "s3cr3t"))) sample_ctx (str_object (lit "hello")) [] =
  (inr (sample_client [] (short_text_call (lit "hello"))),
   [short_text_call (lit "hello")]).
Proof. reflexivity. Qed.

Example empty_dispatched :
  jsk_python_result_handling sample_client (λ _ _, true)
    (feature_with (Some (lit "s3cr3t"))) sample_ctx (str_object []) [] =
  (inr (sample_client [] (short_text_call placeholder)),
   [short_text_call placeholder]).
Proof. reflexivity. Qed.

Example number_dispatched_through_repr :
  jsk_python_result_handling sample_client (λ _ _, true)
    (feature_with (Some (lit "s3cr3t"))) sample_ctx
    {| is_Message := false; is_File := false; is_Embed := false;
       is_PaginatorInterface := false; is_str := false;
       jump_url := []; chars := []; repr := lit "42" |} [] =
  (inr (sample_client [] (short_text_call (lit "42"))),
   [short_text_call (lit "42")]).
Proof. reflexivity. Qed.

Example file_interface_goes_to_file_branch :
  jsk_python_result_handling sample_client (λ _ _, true)
    (feature_with None) sample_ctx
    {| is_Message := false; is_File := true; is_Embed := false;
       is_PaginatorInterface := true; is_str := false;
       jump_url := []; chars := []; repr := lit "<File>" |} [] =
  (inr (sample_client []
          (ctx_send None
             (Some (result_file
                      {| is_Message := false; is_File := true; is_Embed := false;
                         is_PaginatorInterface := true; is_str := false;
                         jump_url := []; chars := []; repr := lit "<File>" |}))
             None None)),
   [ctx_send None
      (Some (result_file
               {| is_Message := false; is_File := true; is_Embed := false;
                  is_PaginatorInterface := true; is_str := false;
                  jump_url := []; chars := []; repr := lit "<File>" |}))
      None None]).
Proof. reflexivity. Qed.

Example two_accounts_convertables :
  (jsk_python_get_convertables (λ _ _, ∅) (lit "_") (feature_with None)
     {| author := alice; bot := bot_with None;
        message := {| mentions := [alice; bob]; channel_mentions := [];
                      role_mentions := [] |};
        interaction := None |}).2
  = {[ lit "<@11>" := lit "__user_mention_0";
       lit "<@12>" := lit "__user_mention_1" ]}.
Proof. by vm_compute. Qed.

Example same_account_twice_one_entry :
  size (jsk_python_get_convertables (λ _ _, ∅) (lit "_") (feature_with None)
          {| author := alice; bot := bot_with None;
             message := {| mentions := [alice; alice]; channel_mentions := [];
                           role_mentions := [] |};
             interaction := None |}).2 = 1%nat.
Proof. by vm_compute. Qed.

(** * Further properties of the dispatcher *)

Section MoreReplaceFacts.

Variables old new : str.

(** A text in which [old] does not occur is left as it is. *)
Lemma replace_scan_absent s :
  old ≠ [] → ¬ occurs old s → replace_scan old new 0 s = s.
Proof.
  intros Hold.
  apply (replace_scan_ind old new (λ s out, ¬ occurs old s → out = s));
    try done.
  - intros rest _ Hno. exfalso. apply Hno. by exists [], rest.
  - intros c t _ IH Hno. f_equal. apply IH.
    intros Hocc. apply Hno, occurs_cons. by right.
Qed.

(** A replacement no longer than what it replaces never lengthens the
    text. *)
Lemma replace_scan_length s :
  old ≠ [] → (len new ≤ len old)%nat →
  (len (replace_scan old new 0 s) ≤ len s)%nat.
Proof.
  intros Hold Hlen.
  apply (replace_scan_ind old new (λ s out, (len out ≤ len s)%nat));
    try done; unfold len in *.
  - intros rest IH. rewrite !length_app. lia.
  - intros c t _ IH. simpl. lia.
Qed.

Lemma redacted_blank s out :
  ¬ blank new → redacted old new s out → blank out → blank s.
Proof.
  unfold blank. intros Hnew. induction 1 as [|s out _ _|c s out _ _ IH].
  - done.
  - intros [Hb _]%Forall_app. done.
  - intros Hb. inversion Hb; subst. constructor; auto.
Qed.

End MoreReplaceFacts.

Section MoreUtf8Facts.

Lemma utf8_encode_char_length c b :
  utf8_encode_char c = Some b → (1 ≤ length b ≤ 4)%nat.
Proof.
  unfold utf8_encode_char.
  repeat match goal with
    | |- context [if ?t then _ else _] => destruct t
    end; intros [= <-]; simpl; lia.
Qed.

(** The UTF-8 form of a text has at least as many bytes as the text has
    characters and at most four times as many. *)
Lemma utf8_length s b :
  encode_utf8 s = Some b → (len s ≤ length b ≤ 4 * len s)%nat.
Proof.
  unfold len. revert b; induction s as [|c s IH]; intros b; cbn [encode_utf8].
  - intros [= <-]. simpl. lia.
  - destruct (utf8_encode_char c) as [bc|] eqn:Hc; [|done].
    destruct (encode_utf8 s) as [bs|]; [|done]. intros [= <-].
    apply utf8_encode_char_length in Hc. specialize (IH bs eq_refl).
    rewrite length_app. simpl. lia.
Qed.

End MoreUtf8Facts.

Section MoreDispatchFacts.

Variable client : list call → call → object.
Variable use_file_check : Context → nat → bool.

#[local] Abbreviation handling :=
  (jsk_python_result_handling client use_file_check).

Lemma placeholder_not_blank : ¬ blank placeholder.
Proof. intros H. by inversion H. Qed.

Lemma marker_not_blank : ¬ blank marker.
Proof. intros H. by inversion H. Qed.

Lemma short_text_content_not_blank token t :
  ¬ blank (short_text_content token t).
Proof.
  unfold short_text_content.
  assert (¬ blank (if is_empty_str (strip t) then placeholder else t)) as Ht.
  { destruct (is_empty_str (strip t)) eqn:E.
    - apply placeholder_not_blank.
    - by apply strip_not_empty. }
  destruct token as [tok|]; [|done].
  destruct (truthy tok) eqn:Htok; [|done].
  assert (tok ≠ []) as Hne by (by destruct tok).
  intros Hb. apply Ht.
  eapply (redacted_blank tok marker); [apply marker_not_blank| |exact Hb].
  by apply replace_redacted.
Qed.

(** X1.  A short text that is not blank is sent exactly as it is when no
    credential is set, when the credential is the empty string, or when
    the credential does not occur in the text. *)
Theorem short_text_verbatim self ctx result log :
  chat_native result = false → (len (text_of result) ≤ 2000)%nat →
  ¬ blank (text_of result) →
  (∀ token, http_token (self_bot self) = Some token →
            token = [] ∨ ¬ occurs token (text_of result)) →
  handling self ctx result log =
  (inr (client log (short_text_call (text_of result))),
   log ++ [short_text_call (text_of result)]).
Proof.
  intros Hn Hlen Hb%strip_not_empty Htok.
  rewrite handling_short_text_run by done. cbv zeta.
  assert (short_text_content (http_token (self_bot self)) (text_of result)
          = text_of result) as ->; [|done].
  unfold short_text_content. rewrite Hb.
  destruct (http_token (self_bot self)) as [tok|]; [|done].
  destruct (Htok tok eq_refl) as [->|Hno]; [done|].
  destruct tok as [|p tok]; [done|]. cbn [truthy is_empty_str negb replace].
  by apply replace_scan_absent.
Qed.

(** X2.  Whatever the text and the credential, the content of a
    short-text send is never blank, hence never empty. *)
Theorem short_text_never_blank self ctx result log :
  chat_native result = false → (len (text_of result) ≤ 2000)%nat →
  ∃ content,
    handling self ctx result log =
      (inr (client log (short_text_call content)), log ++ [short_text_call content])
    ∧ ¬ blank content ∧ content ≠ [].
Proof.
  intros Hn Hlen. eexists. split; [by rewrite handling_short_text_run|].
  pose proof (short_text_content_not_blank (http_token (self_bot self))
                (text_of result)) as Hb.
  split; [done|]. intros E. apply Hb. rewrite E. constructor.
Qed.

(** X3.  When the credential has at least the 15 characters of the
    marker, redaction cannot lengthen the text: the content of a
    short-text send stays within the 2000-character cap. *)
Theorem short_text_within_cap self ctx result token log :
  chat_native result = false → (len (text_of result) ≤ 2000)%nat →
  http_token (self_bot self) = Some token → (15 ≤ len token)%nat →
  ∃ content,
    handling self ctx result log =
      (inr (client log (short_text_call content)), log ++ [short_text_call content])
    ∧ (len content ≤ 2000)%nat.
Proof.
  intros Hn Hlen Htok Hlong. eexists.
  split; [by rewrite handling_short_text_run|].
  rewrite Htok. assert (token ≠ []) as Hne by (intros ->; simpl in Hlong; lia).
  rewrite short_text_content_redacts, replace_nonempty by done.
  etransitivity; [apply replace_scan_length; [done|]|].
  - change (len marker) with 15%nat. lia.
  - destruct (is_empty_str (strip (text_of result))); [|done].
    unfold placeholder, len. simpl. lia.
Qed.

(** X4.  The feature, and with it the credential, is consulted on the
    short-text path only: a message, file, embed or paginator interface
    and every text longer than 2000 characters are dispatched in the same
    way whatever the credential is, so nothing is redacted there. *)
Theorem credential_only_on_short_text self1 self2 ctx result log :
  chat_native result = true ∨ (2000 < len (text_of result))%nat →
  handling self1 ctx result log = handling self2 ctx result log.
Proof.
  intros H. destruct (chat_native result) eqn:Hn.
  - unfold jsk_python_result_handling, chat_native in *.
    destruct (is_Message result); [done|]. destruct (is_File result); [done|].
    destruct (is_Embed result); [done|].
    by destruct (is_PaginatorInterface result).
  - destruct H as [|Hlen]; [done|].
    destruct (use_file_check ctx (len (text_of result))) eqn:Hfile.
    + by rewrite !handling_inline_file.
    + by rewrite !handling_paginated.
Qed.

(** X5.  The inline-preview check is given the number of characters of
    the text, while the attachment holds its UTF-8 bytes: the file that
    is sent has at least as many bytes as the number checked and at most
    four times as many. *)
Theorem inline_file_size self ctx result log :
  chat_native result = false → (2000 < len (text_of result))%nat →
  use_file_check ctx (len (text_of result)) = true →
  encodable (text_of result) →
  ∃ content,
    handling self ctx result log =
      (inr (client log
              (ctx_send None
                 (Some (built_file {| filename := lit "output.py"; fp := content |}))
                 None None)),
       log ++ [ctx_send None
                 (Some (built_file {| filename := lit "output.py"; fp := content |}))
                 None None])
    ∧ (len (text_of result) ≤ length content ≤ 4 * len (text_of result))%nat.
Proof.
  intros Hn Hlen Hfile [content Henc]%utf8_encodable.
  exists content. split.
  - by rewrite (handling_inline_file_run _ _ _ _ _ _ content).
  - by apply utf8_length.
Qed.

(** X6.  A value that is not a str is dispatched exactly as the str that
    is its [repr]: two values outside the four chat-native types with the
    same text are handled in the same way. *)
Theorem text_rules_depend_on_text_only self ctx result1 result2 log :
  chat_native result1 = false → chat_native result2 = false →
  text_of result1 = text_of result2 →
  handling self ctx result1 log = handling self ctx result2 log.
Proof.
  intros Hn1 Hn2 Ht.
  destruct (decide (len (text_of result1) ≤ 2000)%nat) as [Hlen|Hlen].
  - rewrite !handling_short_text by (done || by rewrite <- Ht).
    by rewrite Ht.
  - apply Nat.nle_gt in Hlen.
    destruct (use_file_check ctx (len (text_of result1))) eqn:Hfile.
    + rewrite !handling_inline_file by (done || by rewrite <- Ht).
      by rewrite Ht.
    + rewrite !handling_paginated by (done || by rewrite <- Ht).
      by rewrite Ht.
Qed.

End MoreDispatchFacts.

Lemma short_text_verbatim_witness :
  jsk_python_result_handling sample_client (λ _ _, true)
    (feature_with (Some (lit "s3cr3t"))) sample_ctx
    (str_object (lit "2 + 2 = 4")) [] =
  (inr (sample_client [] (short_text_call (text_of (str_object (lit "2 + 2 = 4"))))),
   [] ++ [short_text_call (text_of (str_object (lit "2 + 2 = 4")))]).
Proof.
  apply (short_text_verbatim sample_client (λ _ _, true)
           (feature_with (Some (lit "s3cr3t"))) sample_ctx
           (str_object (lit "2 + 2 = 4")) []).
  - reflexivity.
  - vm_compute. lia.
  - apply strip_not_empty. reflexivity.
  - intros token [= <-]. right. apply contains_false. reflexivity.
Defined.

Lemma short_text_never_blank_witness :
  ∃ content,
    jsk_python_result_handling sample_client (λ _ _, true)
      (feature_with (Some (lit "s3cr3t"))) sample_ctx
      (str_object (lit "s3cr3t")) [] =
      (inr (sample_client [] (short_text_call content)), [] ++ [short_text_call content])
    ∧ ¬ blank content ∧ content ≠ [].
Proof.
  apply (short_text_never_blank sample_client (λ _ _, true)
           (feature_with (Some (lit "s3cr3t"))) sample_ctx
           (str_object (lit "s3cr3t")) []).
  - reflexivity.
  - vm_compute. lia.
Defined.

Lemma short_text_within_cap_witness :
  ∃ content,
    jsk_python_result_handling sample_client (λ _ _, true)
      (feature_with (Some (lit "0123456789abcdef"))) sample_ctx
      (str_object (lit "key: 0123456789abcdef")) [] =
      (inr (sample_client [] (short_text_call content)), [] ++ [short_text_call content])
    ∧ (len content ≤ 2000)%nat.
Proof.
  apply (short_text_within_cap sample_client (λ _ _, true)
           (feature_with (Some (lit "0123456789abcdef"))) sample_ctx
           (str_object (lit "key: 0123456789abcdef")) (lit "0123456789abcdef") []).
  - reflexivity.
  - vm_compute. lia.
  - reflexivity.
  - vm_compute. lia.
Defined.

Lemma credential_only_on_short_text_witness :
  jsk_python_result_handling sample_client (λ _ _, true)
    (feature_with (Some (lit "s3cr3t"))) sample_ctx
    (message_object (lit "https://discord.com/channels/1/2/3")) [] =
  jsk_python_result_handling sample_client (λ _ _, true)
    (feature_with None) sample_ctx
    (message_object (lit "https://discord.com/channels/1/2/3")) [].
Proof.
  apply (credential_only_on_short_text sample_client (λ _ _, true)).
  left. reflexivity.
Defined.

Lemma inline_file_size_witness :
  ∃ content,
    jsk_python_result_handling sample_client (λ _ _, true)
      (feature_with None) sample_ctx (str_object (replicate 2001 0x1F600)) [] =
      (inr (sample_client []
              (ctx_send None
                 (Some (built_file {| filename := lit "output.py"; fp := content |}))
                 None None)),
       [] ++ [ctx_send None
                (Some (built_file {| filename := lit "output.py"; fp := content |}))
                None None])
    ∧ (len (text_of (str_object (replicate 2001 0x1F600%N))) ≤ length content
       ≤ 4 * len (text_of (str_object (replicate 2001 0x1F600%N))))%nat.
Proof.
  apply (inline_file_size sample_client (λ _ _, true) (feature_with None)
           sample_ctx (str_object (replicate 2001 0x1F600)) []).
  - reflexivity.
  - vm_compute. lia.
  - reflexivity.
  - apply Forall_replicate. split; reflexivity.
Defined.

Lemma text_rules_depend_on_text_only_witness :
  jsk_python_result_handling sample_client (λ _ _, true)
    (feature_with None) sample_ctx
    {| is_Message := false; is_File := false; is_Embed := false;
       is_PaginatorInterface := false; is_str := false;
       jump_url := []; chars := []; repr := lit "[1, 2, 3]" |} [] =
  jsk_python_result_handling sample_client (λ _ _, true)
    (feature_with None) sample_ctx (str_object (lit "[1, 2, 3]")) [].
Proof.
  apply (text_rules_depend_on_text_only sample_client (λ _ _, true)).
  - reflexivity.
  - reflexivity.
  - reflexivity.
Defined.

(** * Further properties of the argument binder *)

Section MoreBindFacts.

Context {A : Type} `{Mentionable A}.
Variables (kind : string) (inj : A → value).

Implicit Types (xs : list A) (d : gmap str value * gmap str str).

Lemma mention_pairs_cons i x xs :
  mention_pairs kind i (x :: xs)
  = (mention x, mention_name kind i) :: mention_pairs kind (S i) xs.
Proof.
  unfold mention_pairs. rewrite imap_cons, Nat.add_0_r. f_equal.
  apply imap_ext. intros j y _. simpl. do 2 f_equal. lia.
Qed.

Lemma mention_pairs_fst i xs : (mention_pairs kind i xs).*1 = mention <$> xs.
Proof.
  revert i; induction xs as [|x xs IH]; intros i; [done|].
  rewrite mention_pairs_cons. csimpl. by rewrite IH.
Qed.

Lemma mention_pairs_length i xs : length (mention_pairs kind i xs) = length xs.
Proof. apply length_imap. Qed.

(** One loop, in closed form: the pairs are written in visiting order on
    top of what the dictionary held, a later pair overriding an earlier
    one. *)
Lemma bind_mentions_conv_closed xs i d :
  (bind_mentions kind inj i xs d).2
  = list_to_map (reverse (mention_pairs kind i xs)) ∪ d.2.
Proof.
  revert i d; induction xs as [|x xs IH]; intros i d.
  - cbn. by rewrite (left_id_L ∅ (∪)).
  - cbn [bind_mentions]. rewrite IH. cbn [snd].
    rewrite mention_pairs_cons, reverse_cons, list_to_map_app.
    rewrite <- (assoc_L (∪)). f_equal.
    cbn. by rewrite <- insert_union_l, (left_id_L ∅ (∪)).
Qed.

Lemma bind_mentions_conv_entity xs i d t v :
  (bind_mentions kind inj i xs d).2 !! t = Some v →
  d.2 !! t = Some v
  ∨ ∃ j x, xs !! j = Some x ∧ mention x = t ∧ v = mention_name kind (i + j).
Proof.
  revert i d; induction xs as [|x xs IH]; intros i d Hv; [by left|].
  cbn [bind_mentions] in Hv. apply IH in Hv as [Hv|(j & y & Hj & Ht & ->)].
  - cbn [snd] in Hv. apply lookup_insert_Some in Hv as [[<- <-]|[_ Hv]].
    + right. exists 0%nat, x. by rewrite Nat.add_0_r.
    + by left.
  - right. exists (S j), y. split; [done|]. split; [done|]. f_equal. lia.
Qed.

End MoreBindFacts.

Section MoreMapFacts.

Context {V : Type}.

Lemma list_to_map_size_le (l : list (str * V)) :
  (size (list_to_map l : gmap str V) ≤ length l)%nat.
Proof.
  induction l as [|[k v] l IH]; [by rewrite list_to_map_nil, map_size_empty|].
  rewrite list_to_map_cons, map_size_insert.
  destruct (list_to_map l !! k); simpl; lia.
Qed.

(** In a map built from the reversed list, a key has the value of its
    last pair. *)
Lemma list_to_map_reverse_last (l : list (str * V)) j t v :
  l !! j = Some (t, v) →
  (∀ j' v', (j < j')%nat → l !! j' ≠ Some (t, v')) →
  (list_to_map (reverse l) : gmap str V) !! t = Some v.
Proof.
  revert j. induction l as [|[k w] l IH] using rev_ind; intros j Hj Hlast;
    [done|].
  rewrite reverse_snoc, list_to_map_cons.
  destruct (decide (j = length l)) as [->|Hne].
  - rewrite list_lookup_middle in Hj by done. injection Hj as -> ->.
    apply lookup_insert_eq.
  - assert (j < length l)%nat as Hlt.
    { apply lookup_lt_Some in Hj. rewrite length_app in Hj. simpl in Hj. lia. }
    rewrite lookup_app_l in Hj by done.
    rewrite lookup_insert_ne.
    + apply (IH j Hj). intros j' v' Hj' Hl.
      apply (Hlast j' v' Hj'). rewrite lookup_app_l; [done|].
      by eapply lookup_lt_Some.
    + intros ->. apply (Hlast (length l) w Hlt).
      by rewrite list_lookup_middle.
Qed.

End MoreMapFacts.

Section MoreConvertableFacts.

Variable get_var_dict_from_ctx : Context → str → gmap str value.
Variable Flags_SCOPE_PREFIX : str.

#[local] Abbreviation get_convertables :=
  (jsk_python_get_convertables get_var_dict_from_ctx Flags_SCOPE_PREFIX).

Lemma mention_name_dunder kind i : lit "__" `prefix_of` mention_name kind i.
Proof. unfold mention_name. by eexists. Qed.

(** What the three loops leave of the bindings they start from. *)
Lemma binder_args_other self ctx k :
  (∀ kind i, k ≠ mention_name kind i) →
  (get_convertables self ctx).1 !! k
  = <[lit "_" := last_result self]>
      (get_var_dict_from_ctx ctx Flags_SCOPE_PREFIX) !! k.
Proof.
  intros Hk. unfold jsk_python_get_convertables.
  destruct (interaction ctx); [done|]. cbv zeta.
  by rewrite !bind_mentions_args_other by (intros j _; apply Hk).
Qed.

(** The pairs the binder writes for a message, in closed form. *)
Lemma binder_conv_closed self ctx :
  interaction ctx = None →
  (get_convertables self ctx).2 = list_to_map (reverse (message_pairs (message ctx))).
Proof.
  intros Hi. unfold jsk_python_get_convertables, message_pairs.
  rewrite Hi. cbv zeta. rewrite !bind_mentions_conv_closed. cbn [snd].
  rewrite (right_id_L ∅ (∪)), !reverse_app, !list_to_map_app.
  by rewrite (assoc_L (∪)).
Qed.

(** X7.  Whatever the invocation and whatever it mentions, the bindings
    hold the last result under "_": no mention identifier collides with
    that name, and a "_" supplied by the context variables is
    overwritten. *)
Theorem underscore_is_last_result self ctx :
  (get_convertables self ctx).1 !! lit "_" = Some (last_result self).
Proof.
  rewrite binder_args_other.
  - apply lookup_insert_eq.
  - intros kind i E. pose proof (mention_name_dunder kind i) as [k Hk].
    rewrite <- E in Hk. discriminate Hk.
Qed.

(** X8.  The binder keeps the context variables: a name other than "_"
    that does not begin with two underscores is bound exactly as
    [get_var_dict_from_ctx] bound it, or not at all. *)
Theorem context_variables_kept self ctx k :
  k ≠ lit "_" → ¬ lit "__" `prefix_of` k →
  (get_convertables self ctx).1 !! k
  = get_var_dict_from_ctx ctx Flags_SCOPE_PREFIX !! k.
Proof.
  intros Hk Hdunder. rewrite binder_args_other.
  - by rewrite lookup_insert_ne.
  - intros kind i ->. apply Hdunder, mention_name_dunder.
Qed.

(** X9.  For a message-based invocation every mentioned account, channel
    and role is bound under its indexed identifier, also when several
    mentions carry the same literal. *)
Theorem mentions_always_bound self ctx :
  interaction ctx = None →
  (∀ i u, mentions (message ctx) !! i = Some u →
     (get_convertables self ctx).1 !! mention_name "user" i = Some (PyUser u))
  ∧ (∀ i c, channel_mentions (message ctx) !! i = Some c →
     (get_convertables self ctx).1 !! mention_name "channel" i = Some (PyChannel c))
  ∧ (∀ i r, role_mentions (message ctx) !! i = Some r →
     (get_convertables self ctx).1 !! mention_name "role" i = Some (PyRole r)).
Proof.
  intros Hi. unfold jsk_python_get_convertables. rewrite Hi. cbv zeta.
  split; [|split].
  - intros i u Hu.
    rewrite !bind_mentions_args_other
      by (intros j _; by apply mention_name_kinds).
    by apply (bind_mentions_args "user" PyUser _ 0).
  - intros i c Hc.
    rewrite bind_mentions_args_other
      by (intros j _; by apply mention_name_kinds).
    by apply (bind_mentions_args "channel" PyChannel _ 0).
  - intros i r Hr. by apply (bind_mentions_args "role" PyRole _ 0).
Qed.

(** X10.  The two dictionaries agree: whenever the convertables map a
    literal to an identifier, the bindings hold under that identifier an
    account, channel or role whose mention literal is that literal. *)
Theorem convertables_point_to_bindings self ctx t v :
  (get_convertables self ctx).2 !! t = Some v →
  ∃ entity,
    (get_convertables self ctx).1 !! v = Some entity
    ∧ value_mention entity = Some t.
Proof.
  unfold jsk_python_get_convertables.
  destruct (interaction ctx); cbv zeta.
  { cbn [snd]. by rewrite lookup_empty. }
  intros Hv.
  apply bind_mentions_conv_entity in Hv as [Hv|(j & r & Hj & <- & ->)].
  2:{ exists (PyRole r). split; [|done].
      by apply (bind_mentions_args "role" PyRole _ 0). }
  apply bind_mentions_conv_entity in Hv as [Hv|(j & c & Hj & <- & ->)].
  2:{ exists (PyChannel c). split; [|done].
      rewrite bind_mentions_args_other
        by (intros j' _; by apply mention_name_kinds).
      by apply (bind_mentions_args "channel" PyChannel _ 0). }
  apply bind_mentions_conv_entity in Hv as [Hv|(j & u & Hj & <- & ->)].
  { cbn [snd] in Hv. by rewrite lookup_empty in Hv. }
  exists (PyUser u). split; [|done].
  rewrite !bind_mentions_args_other
    by (intros j' _; by apply mention_name_kinds).
  by apply (bind_mentions_args "user" PyUser _ 0).
Qed.

(** X11.  For a message-based invocation the convertables are the
    (literal, identifier) pairs of the accounts, then the channels, then
    the roles, written in that order with a later pair overriding an
    earlier one: a literal carried by several mentions maps to the
    identifier of the last of them. *)
Theorem convertables_last_mention_wins self ctx :
  interaction ctx = None →
  (get_convertables self ctx).2 = list_to_map (reverse (message_pairs (message ctx)))
  ∧ ∀ j t v,
      message_pairs (message ctx) !! j = Some (t, v) →
      (∀ j' v', (j < j')%nat → message_pairs (message ctx) !! j' ≠ Some (t, v')) →
      (get_convertables self ctx).2 !! t = Some v.
Proof.
  intros Hi. rewrite binder_conv_closed by done. split; [done|].
  intros j t v. apply list_to_map_reverse_last.
Qed.

(** X12.  For a message-based invocation the literals that have an entry
    in the convertables are exactly the mention literals of the message,
    so there are at most N+M+K entries, fewer when literals repeat. *)
Theorem convertables_domain self ctx :
  interaction ctx = None →
  dom (get_convertables self ctx).2 = list_to_set (mention_texts (message ctx))
  ∧ (size (get_convertables self ctx).2
     ≤ length (mentions (message ctx)) + length (channel_mentions (message ctx))
       + length (role_mentions (message ctx)))%nat.
Proof.
  intros Hi. rewrite binder_conv_closed by done. split.
  - rewrite dom_list_to_map_L. apply set_eq. intros t.
    rewrite !elem_of_list_to_set, fmap_reverse, elem_of_reverse.
    unfold message_pairs, mention_texts.
    by rewrite !fmap_app, !mention_pairs_fst.
  - etransitivity; [apply list_to_map_size_le|].
    unfold message_pairs.
    rewrite length_reverse, !length_app, !mention_pairs_length. lia.
Qed.

End MoreConvertableFacts.

Lemma context_variables_kept_witness :
  (jsk_python_get_convertables (λ _ _, {[ lit "_ctx" := PyNone ]}) (lit "_")
     (feature_with None) sample_ctx).1 !! lit "_ctx"
  = ({[ lit "_ctx" := PyNone ]} : gmap str value) !! lit "_ctx".
Proof.
  apply (context_variables_kept (λ _ _, {[ lit "_ctx" := PyNone ]}) (lit "_")
           (feature_with None) sample_ctx (lit "_ctx")).
  - discriminate.
  - intros [k Hk]. discriminate Hk.
Defined.

Lemma mentions_always_bound_witness :
  (jsk_python_get_convertables (λ _ _, ∅) (lit "_") (feature_with None)
     sample_ctx).1 !! lit "__channel_mention_0" = Some (PyChannel general).
Proof.
  destruct (mentions_always_bound (λ _ _, ∅) (lit "_") (feature_with None)
              sample_ctx eq_refl) as (_ & Hchannels & _).
  exact (Hchannels 0%nat general eq_refl).
Defined.

Lemma convertables_point_to_bindings_witness :
  ∃ entity,
    (jsk_python_get_convertables (λ _ _, ∅) (lit "_") (feature_with None)
       sample_ctx).1 !! lit "__role_mention_0" = Some entity
    ∧ value_mention entity = Some (lit "<@&31>").
Proof.
  apply (convertables_point_to_bindings (λ _ _, ∅) (lit "_") (feature_with None)
           sample_ctx (lit "<@&31>") (lit "__role_mention_0")).
  vm_compute. reflexivity.
Defined.

Lemma convertables_last_mention_wins_witness :
  (jsk_python_get_convertables (λ _ _, ∅) (lit "_") (feature_with None)
     sample_ctx).2 !! lit "<@12>" = Some (lit "__user_mention_1").
Proof.
  destruct (convertables_last_mention_wins (λ _ _, ∅) (lit "_")
              (feature_with None) sample_ctx eq_refl) as [_ Hlast].
  apply (Hlast 1%nat (lit "<@12>") (lit "__user_mention_1")).
  - reflexivity.
  - intros [|[|[|[|j']]]] v' Hj'; try lia; vm_compute; discriminate.
Defined.

Lemma convertables_domain_witness :
  dom (jsk_python_get_convertables (λ _ _, ∅) (lit "_") (feature_with None)
         sample_ctx).2 = list_to_set (mention_texts (message sample_ctx))
  ∧ (size (jsk_python_get_convertables (λ _ _, ∅) (lit "_") (feature_with None)
             sample_ctx).2
     ≤ length (mentions (message sample_ctx))
       + length (channel_mentions (message sample_ctx))
       + length (role_mentions (message sample_ctx)))%nat.
Proof.
  apply (convertables_domain (λ _ _, ∅) (lit "_") (feature_with None) sample_ctx).
  reflexivity.
Defined.

(** * Further properties of the scope provider *)

(** X13.  Neither an access to [scope] nor the initialization of a
    feature disturbs a scope that already lives in the store: every live
    reference stays live with the content it had. *)
Theorem scopes_are_never_disturbed self b Flags_RETAIN (h : store) r s :
  h !! r = Some s →
  (scope self h).2 !! r = Some s
  ∧ (PythonFeature_init b Flags_RETAIN h).2 !! r = Some s.
Proof.
  intros Hr.
  assert (<[fresh (dom h) := Scope_empty]> h !! r = Some s) as Hnew.
  { rewrite lookup_insert_ne; [done|]. intros E.
    apply (is_fresh (dom h)). rewrite E. apply elem_of_dom. by eexists. }
  unfold scope, PythonFeature_init, Scope_new. split; [|done].
  by destruct (retain self).
Qed.

Lemma scopes_are_never_disturbed_witness :
  (scope (feature_with None) {[ 1%positive := {[ lit "x" := PyNone ]} ]}).2
    !! 1%positive = Some {[ lit "x" := PyNone ]}
  ∧ (PythonFeature_init (bot_with None) false
       {[ 1%positive := {[ lit "x" := PyNone ]} ]}).2
    !! 1%positive = Some {[ lit "x" := PyNone ]}.
Proof.
  apply (scopes_are_never_disturbed (feature_with None) (bot_with None) false
           {[ 1%positive := {[ lit "x" := PyNone ]} ]} 1%positive
           {[ lit "x" := PyNone ]}).
  reflexivity.
Defined.

(** X14.  A feature initialized with retention on hands out, at its
    first access, the empty scope made at initialization and leaves the
    store as it is; initialized with retention off it hands out another
    scope, also empty, and the scope made at initialization stays in the
    store, empty and unused. *)
Theorem scope_after_init b (h : store) :
  (scope (PythonFeature_init b true h).1 (PythonFeature_init b true h).2
   = (_scope (PythonFeature_init b true h).1, (PythonFeature_init b true h).2)
   ∧ (PythonFeature_init b true h).2 !! _scope (PythonFeature_init b true h).1
     = Some Scope_empty)
  ∧ ((scope (PythonFeature_init b false h).1 (PythonFeature_init b false h).2).1
     ≠ _scope (PythonFeature_init b false h).1
     ∧ (scope (PythonFeature_init b false h).1 (PythonFeature_init b false h).2).2
       !! (scope (PythonFeature_init b false h).1 (PythonFeature_init b false h).2).1
       = Some Scope_empty
     ∧ (scope (PythonFeature_init b false h).1 (PythonFeature_init b false h).2).2
       !! _scope (PythonFeature_init b false h).1 = Some Scope_empty).
Proof.
  unfold scope, PythonFeature_init, Scope_new.
  cbn [fst snd retain _scope].
  set (r := fresh (dom h)). set (h1 := <[r := Scope_empty]> h).
  assert (fresh (dom h1) ≠ r) as Hne.
  { intros E. apply (is_fresh (dom h1)). rewrite E.
    apply elem_of_dom. unfold h1. rewrite lookup_insert_eq. by eexists. }
  split; [split; [done | apply lookup_insert_eq]|].
  split; [done|]. split; [apply lookup_insert_eq|].
  rewrite lookup_insert_ne by done. apply lookup_insert_eq.
Qed.
